(** * Query-AI-Agent: the extraction and reconciliation pipeline

    A shallow embedding of the logic of the entity extractor front end:
    the PDF text normaliser ([readFileContent]), the response handling of
    [extractEntitiesFromText], the CSV export ([handleDownloadCsv]), the
    tolerant CSV import ([parseCsv]) and the identifier-based comparison
    of [handleVerify].

    JavaScript strings are sequences of UTF-16 code units; a code unit is a
    number ([N]) and a string is a list of them, so every string the
    program can hold is covered. *)

From stdpp Require Import gmap list strings.

(** ** JavaScript strings *)

Abbreviation char := N.
Abbreviation jsstring := (list N).

(** The code units of an ASCII literal. *)
Definition js (s : string) : jsstring :=
  (λ a, Ascii.N_of_ascii a) <$> String.list_ascii_of_string s.
Arguments js _%_string.

Definition QUOTE : char := 34%N.
Definition COMMA : char := 44%N.
Definition LF : char := 10%N.
Definition CR : char := 13%N.
Definition SPACE : char := 32%N.

(** ECMAScript LineTerminator: LF, CR, LS, PS. *)
Definition is_line_terminator (c : char) : bool :=
  (c =? 10)%N || (c =? 13)%N || (c =? 8232)%N || (c =? 8233)%N.

(** ECMAScript WhiteSpace and LineTerminator, the set removed by
    [String.prototype.trim] and matched by [\s]: TAB, VT, FF, SP, NBSP,
    ZWNBSP, the Unicode space separators, and the line terminators. *)
Definition is_ws (c : char) : bool :=
  (c =? 9)%N || (c =? 11)%N || (c =? 12)%N || (c =? 32)%N || (c =? 160)%N
  || (c =? 5760)%N || ((8192 <=? c)%N && (c <=? 8202)%N)
  || (c =? 8239)%N || (c =? 8287)%N || (c =? 12288)%N || (c =? 65279)%N
  || is_line_terminator c.

Fixpoint trimStart (s : jsstring) : jsstring :=
  match s with
  | [] => []
  | c :: s' => if is_ws c then trimStart s' else s
  end.

Definition trimEnd (s : jsstring) : jsstring := reverse (trimStart (reverse s)).

(** [s.trim()] *)
Definition trim (s : jsstring) : jsstring := trimEnd (trimStart s).

(** [parts.join(sep)] *)
Fixpoint join (sep : jsstring) (parts : list jsstring) : jsstring :=
  match parts with
  | [] => []
  | [p] => p
  | p :: ps => p ++ sep ++ join sep ps
  end.

(** [s.split(',')]: the pieces between the commas; always at least one. *)
Fixpoint split_comma (s : jsstring) : list jsstring :=
  match s with
  | [] => [[]]
  | c :: s' =>
      if (c =? COMMA)%N then [] :: split_comma s'
      else match split_comma s' with
           | [] => [[c]]
           | p :: ps => (c :: p) :: ps
           end
  end.

(** [s.split(/\r?\n/)]: a separator is LF, or CR immediately followed by
    LF (the optional CR is greedy, so the CR goes with the separator). *)
Fixpoint split_lines (s : jsstring) : list jsstring :=
  match s with
  | [] => [[]]
  | c :: s' =>
      let keep := match split_lines s' with
                  | [] => [[c]]
                  | p :: ps => (c :: p) :: ps
                  end in
      if (c =? LF)%N then [] :: split_lines s'
      else if (c =? CR)%N then
        match s' with
        | d :: s'' => if (d =? LF)%N then [] :: split_lines s'' else keep
        | [] => keep
        end
      else keep
  end.

(** [s.replace(re, '')] for the global regular expression of the quote
    character: every quote is removed. *)
Definition strip_quotes (s : jsstring) : jsstring :=
  filter (λ c, c ≠ QUOTE) s.

(** [s.replace(re, qq)] for the same regular expression and [qq] two
    quote characters: every quote is doubled. *)
Fixpoint double_quotes (s : jsstring) : jsstring :=
  match s with
  | [] => []
  | c :: s' =>
      if (c =? QUOTE)%N then QUOTE :: QUOTE :: double_quotes s'
      else c :: double_quotes s'
  end.

(** [xs.indexOf(x)], with [None] for [-1]. *)
Fixpoint indexOf (xs : list jsstring) (x : jsstring) : option nat :=
  match xs with
  | [] => None
  | y :: ys => if decide (y = x) then Some 0 else S <$> indexOf ys x
  end.

(** ** The record types (types.ts) *)

Inductive Relation := PAN_Of.
Inductive EntityType := Organisation | Name.

Record ExtractedEntity := mkEntity {
  pan : jsstring;
  relation : Relation;
  entityName : jsstring;
  entityType : EntityType;
}.

Record ComparisonResult := mkComparison {
  matches : list ExtractedEntity;
  aiOnly : list ExtractedEntity;
  groundTruthOnly : list ExtractedEntity;
}.

Definition relation_label (r : Relation) : jsstring :=
  match r with PAN_Of => js "PAN_Of" end.

Definition entityType_label (t : EntityType) : jsstring :=
  match t with Organisation => js "Organisation" | Name => js "Name" end.

(** ** Verification: the comparison of handleVerify *)

(** [new Set(data.map(d => d.pan))] *)
Definition pans (data : list ExtractedEntity) : gset jsstring :=
  list_to_set (pan <$> data).

Definition compare (aiData groundTruthData : list ExtractedEntity)
  : ComparisonResult :=
  let aiPans := pans aiData in
  let gtPans := pans groundTruthData in
  {| matches := filter (λ d, pan d ∈ gtPans) aiData;
     aiOnly := filter (λ d, pan d ∉ gtPans) aiData;
     groundTruthOnly := filter (λ d, pan d ∉ aiPans) groundTruthData |}.

(** ** Regular expressions

    The backtracking matcher of ECMAScript (without the unicode, multiline,
    dotAll and ignoreCase flags), in continuation-passing style: a matcher
    takes the rest of the input and a continuation, and answers with the
    rest of the input after the whole match. Nothing in the expressions
    below looks behind the current position, so the rest of the input is
    all the state there is. *)

Inductive regex :=
  | Chr (c : char)                   (* a literal character *)
  | Dot                              (* .   any but a line terminator *)
  | NoneOf (cs : list char)          (* [^...] *)
  | Space                            (* \s *)
  | Eos                              (* $ *)
  | Seq (r1 r2 : regex)
  | Alt (r1 r2 : regex)              (* r1|r2 *)
  | Star (greedy : bool) (r : regex) (* r* and r*? *)
  | Look (r : regex).                (* (?=r) *)

(** [r+] *)
Definition Plus (r : regex) : regex := Seq r (Star true r).

Definition cont := jsstring → option jsstring.

Definition one (p : char → bool) (s : jsstring) (k : cont) : option jsstring :=
  match s with
  | c :: s' => if p c then k s' else None
  | [] => None
  end.

(** RepeatMatcher with no upper bound: an iteration that consumes nothing
    is rejected, so [S (length s)] rounds are never exhausted. *)
Fixpoint star_loop (greedy : bool) (m : jsstring → cont → option jsstring)
    (fuel : nat) (s : jsstring) (k : cont) : option jsstring :=
  match fuel with
  | 0 => None
  | S n =>
      let again :=
        m s (λ s', if decide (length s' < length s)
                   then star_loop greedy m n s' k else None) in
      if greedy
      then match again with Some r => Some r | None => k s end
      else match k s with Some r => Some r | None => again end
  end.

Fixpoint rmatch (r : regex) (s : jsstring) (k : cont) : option jsstring :=
  match r with
  | Chr c => one (λ x, (x =? c)%N) s k
  | Dot => one (λ x, negb (is_line_terminator x)) s k
  | NoneOf cs => one (λ x, negb (existsb (N.eqb x) cs)) s k
  | Space => one is_ws s k
  | Eos => match s with [] => k s | _ :: _ => None end
  | Seq r1 r2 => rmatch r1 s (λ s', rmatch r2 s' k)
  | Alt r1 r2 =>
      match rmatch r1 s k with Some x => Some x | None => rmatch r2 s k end
  | Star g r1 => star_loop g (rmatch r1) (S (length s)) s k
  | Look r1 =>
      match rmatch r1 s Some with Some _ => k s | None => None end
  end.

(** [s.match(re)] for a global [re]: every match, scanning from the left;
    the search resumes where the last match ended, one further on after an
    empty match. The empty list stands for [null] as well: the caller
    turns [null] into an empty array. *)
Fixpoint match_all (re : regex) (fuel : nat) (s : jsstring) : list jsstring :=
  match fuel with
  | 0 => []
  | S n =>
      let advance := match s with [] => [] | _ :: s' => match_all re n s' end in
      match rmatch re s Some with
      | Some rest =>
          match take (length s - length rest) s with
          | [] => [] :: advance
          | m => m :: match_all re n rest
          end
      | None => advance
      end
  end.

Definition matchAll (re : regex) (s : jsstring) : list jsstring :=
  match_all re (S (length s)) s.

(** The expression of parseCsv: a double-quoted run (lazy) or a run of
    characters other than quote and comma, followed (lookahead) by
    optional white space and a comma, or optional white space and the end
    of the line. *)
Definition quoted_run : regex :=
  Seq (Chr QUOTE) (Seq (Star false Dot) (Chr QUOTE)).

Definition bare_run : regex := Plus (NoneOf [QUOTE; COMMA]).

Definition field_end : regex :=
  Look (Alt (Seq (Star true Space) (Chr COMMA))
            (Seq (Star true Space) Eos)).

Definition field_re : regex := Seq (Alt quoted_run bare_run) field_end.

(** ** CSV import: parseCsv (components/Verification.tsx) *)

Definition headers_error : jsstring :=
  js "CSV must contain " ++ [QUOTE] ++ js "PAN" ++ [QUOTE] ++ js ", "
  ++ [QUOTE] ++ js "Entity Name" ++ [QUOTE] ++ js ", and "
  ++ [QUOTE] ++ js "Entity Type" ++ [QUOTE] ++ js " headers.".

(** The fields of a data row: the matches, every quote removed. *)
Definition row_values (line : jsstring) : list jsstring :=
  strip_quotes <$> matchAll field_re line.

(** [values[i]?.trim() ?? ''] *)
Definition value_at (values : list jsstring) (i : nat) : jsstring :=
  match values !! i with Some v => trim v | None => [] end.

Definition row_entity (panIndex nameIndex typeIndex : nat) (line : jsstring)
  : ExtractedEntity :=
  let values := row_values line in
  {| pan := value_at values panIndex;
     relation := PAN_Of;
     entityName := value_at values nameIndex;
     entityType :=
       match values !! typeIndex with
       | Some v => if decide (trim v = js "Organisation")
                   then Organisation else Name
       | None => Name
       end |}.

(** A string is truthy when it is not empty. *)
Definition truthy (s : jsstring) : bool :=
  match s with [] => false | _ :: _ => true end.

(** The loop over the data rows, pushing onto [result]. *)
Fixpoint parse_rows (panIndex nameIndex typeIndex : nat)
    (rows : list jsstring) (result : list ExtractedEntity)
  : list ExtractedEntity :=
  match rows with
  | [] => result
  | line :: rows' =>
      let entity := row_entity panIndex nameIndex typeIndex line in
      parse_rows panIndex nameIndex typeIndex rows'
        (if truthy (pan entity) && truthy (entityName entity)
         then result ++ [entity] else result)
  end.

Definition parse_headers (line : jsstring) : list jsstring :=
  (λ h, strip_quotes (trim h)) <$> split_comma line.

(** [inl message] is the thrown [Error]. *)
Definition parseCsv (csvText : jsstring) : jsstring + list ExtractedEntity :=
  let lines := split_lines (trim csvText) in
  if decide (length lines < 2) then inr [] else
  let headers := parse_headers (lines !!! 0) in
  match indexOf headers (js "PAN"),
        indexOf headers (js "Entity Name"),
        indexOf headers (js "Entity Type") with
  | Some panIndex, Some nameIndex, Some typeIndex =>
      inr (parse_rows panIndex nameIndex typeIndex (drop 1 lines) [])
  | _, _, _ => inl headers_error
  end.

(** handleVerify, after the file has been read. *)
Definition handleVerify (aiData : list ExtractedEntity) (csvText : jsstring)
  : jsstring + ComparisonResult :=
  match parseCsv csvText with
  | inl message => inl message
  | inr groundTruthData => inr (compare aiData groundTruthData)
  end.

(** ** CSV export: handleDownloadCsv (App.tsx) *)

Definition quoted (s : jsstring) : jsstring := [QUOTE] ++ s ++ [QUOTE].

Definition csv_headers : list jsstring :=
  [js "PAN"; js "Relation"; js "Entity Name"; js "Entity Type"].

Definition csv_row (item : ExtractedEntity) : jsstring :=
  join [COMMA]
    [quoted (pan item);
     quoted (relation_label (relation item));
     quoted (double_quotes (entityName item));
     quoted (entityType_label (entityType item))].

Definition csvContent (extractedData : list ExtractedEntity) : jsstring :=
  join [LF] (join [COMMA] csv_headers :: (csv_row <$> extractedData)).

(** Nothing is downloaded while there is no extraction result. *)
Definition handleDownloadCsv (extractedData : option (list ExtractedEntity))
  : option jsstring :=
  csvContent <$> extractedData.

(** ** Text normaliser: readFileContent (App.tsx) *)

(** An entry of a page's text content: a text item carries [str], a
    marked-content entry does not. *)
Inductive item :=
  | TextItem (str : jsstring)
  | TextMarkedContent.

(** What the program sees of a loaded PDF: the page count and, for a page
    number, the entries of its text content, or the message of the error
    the read was rejected with. *)
Record PDFDocument := mkPDF {
  numPages : nat;
  getPage : nat → jsstring + list item;
}.

Record File := mkFile {
  file_type : jsstring;
  file_text : jsstring;
  file_pdf : jsstring + PDFDocument;
}.

(** ['str' in item ? item.str : ''] *)
Definition item_str (it : item) : jsstring :=
  match it with TextItem str => str | TextMarkedContent => [] end.

Definition pageText (items : list item) : jsstring :=
  join [SPACE] (item_str <$> items).

(** The loop [for (i = 1; i <= numPages; i++)], with [todo] pages left:
    page [i] is read and its text and a line feed appended to [fullText]. *)
Fixpoint read_pages (doc : PDFDocument) (i todo : nat) (fullText : jsstring)
  : jsstring + jsstring :=
  match todo with
  | 0 => inr fullText
  | S todo' =>
      match getPage doc i with
      | inl message => inl message
      | inr items =>
          read_pages doc (S i) todo' (fullText ++ pageText items ++ [LF])
      end
  end.

Definition unsupported_error : jsstring :=
  js "Unsupported file type. Please upload a .txt or .pdf file.".

(** [inr text] is the document text that is set, [inl message] the error
    that is shown. *)
Definition readFileContent (file : File) : jsstring + jsstring :=
  if decide (file_type file = js "text/plain") then inr (file_text file)
  else if decide (file_type file = js "application/pdf") then
    match file_pdf file with
    | inl message => inl message
    | inr doc => read_pages doc 1 (numPages doc) []
    end
  else inl unsupported_error.

(** ** JSON values and JSON.parse

    [JSON.parse] belongs to the platform; this is a reader of the JSON
    grammar (ECMA-404), numbers kept as their text and objects as their
    members in source order. [None] stands for the [SyntaxError]. *)

#[local] Set Warnings "-register-all".
Inductive json :=
  | JNull
  | JBool (b : bool)
  | JNumber (lexeme : jsstring)
  | JString (s : jsstring)
  | JArray (elements : list json)
  | JObject (members : list (jsstring * json)).

Definition json_ws (c : char) : bool :=
  (c =? 32)%N || (c =? 9)%N || (c =? 10)%N || (c =? 13)%N.

Fixpoint skip_ws (s : jsstring) : jsstring :=
  match s with
  | c :: s' => if json_ws c then skip_ws s' else s
  | [] => []
  end.

Definition is_digit (c : char) : bool := (48 <=? c)%N && (c <=? 57)%N.

Definition hex_value (c : char) : option N :=
  if is_digit c then Some (c - 48)%N
  else if (97 <=? c)%N && (c <=? 102)%N then Some (c - 87)%N
  else if (65 <=? c)%N && (c <=? 70)%N then Some (c - 55)%N
  else None.

Definition hex4 (a b c d : char) : option char :=
  x ← hex_value a; y ← hex_value b; z ← hex_value c; w ← hex_value d;
  Some (((x * 16 + y) * 16 + z) * 16 + w)%N.

(** The character an escape letter stands for (not the u escape). *)
Definition escape (e : char) : option char :=
  if (e =? 34)%N then Some 34%N           (* quote *)
  else if (e =? 92)%N then Some 92%N      (* backslash *)
  else if (e =? 47)%N then Some 47%N      (* slash *)
  else if (e =? 98)%N then Some 8%N       (* b *)
  else if (e =? 102)%N then Some 12%N     (* f *)
  else if (e =? 110)%N then Some 10%N     (* n *)
  else if (e =? 114)%N then Some 13%N     (* r *)
  else if (e =? 116)%N then Some 9%N      (* t *)
  else None.

Definition push_char (c : char) (r : option (jsstring * jsstring))
  : option (jsstring * jsstring) :=
  '(str, rest) ← r; Some (c :: str, rest).

(** A string, after its opening quote: its characters and what follows
    the closing quote. *)
Fixpoint json_string (s : jsstring) : option (jsstring * jsstring) :=
  match s with
  | [] => None
  | c :: s1 =>
      if (c =? 34)%N then Some ([], s1)
      else if (c =? 92)%N then
        match s1 with
        | [] => None
        | e :: s2 =>
            if (e =? 117)%N then
              match s2 with
              | h1 :: h2 :: h3 :: h4 :: s3 =>
                  u ← hex4 h1 h2 h3 h4; push_char u (json_string s3)
              | _ => None
              end
            else x ← escape e; push_char x (json_string s2)
        end
      else if (c <? 32)%N then None
      else push_char c (json_string s1)
  end.

Fixpoint span (p : char → bool) (s : jsstring) : jsstring * jsstring :=
  match s with
  | c :: s' =>
      if p c then let '(a, b) := span p s' in (c :: a, b) else ([], s)
  | [] => ([], [])
  end.

(** One or more digits. *)
Definition digits1 (s : jsstring) : option (jsstring * jsstring) :=
  match span is_digit s with
  | ([], _) => None
  | (ds, rest) => Some (ds, rest)
  end.

(** A number: its text and what follows it. *)
Definition json_number (s : jsstring) : option (jsstring * jsstring) :=
  let '(sign, s1) :=
    match s with
    | c :: s' => if (c =? 45)%N then ([c], s') else ([], s)
    | [] => ([], s)
    end in
  '(int, s2) ←
    match s1 with
    | c :: s' =>
        if (c =? 48)%N then Some ([c], s')
        else if is_digit c then
          let '(ds, r) := span is_digit s' in Some (c :: ds, r)
        else None
    | [] => None
    end;
  '(frac, s3) ←
    match s2 with
    | c :: s' =>
        if (c =? 46)%N then '(ds, r) ← digits1 s'; Some (c :: ds, r)
        else Some ([], s2)
    | [] => Some ([], s2)
    end;
  '(exp, s4) ←
    match s3 with
    | c :: s' =>
        if (c =? 101)%N || (c =? 69)%N then
          let '(sg, s'') :=
            match s' with
            | d :: t => if (d =? 43)%N || (d =? 45)%N then ([d], t) else ([], s')
            | [] => ([], s')
            end in
          '(ds, r) ← digits1 s''; Some (c :: sg ++ ds, r)
        else Some ([], s3)
    | [] => Some ([], s3)
    end;
  Some (sign ++ int ++ frac ++ exp, s4).

(** [s] without the prefix [p], when it starts with it. *)
Fixpoint after_prefix (p s : jsstring) : option jsstring :=
  match p, s with
  | [], _ => Some s
  | a :: p', b :: s' => if (a =? b)%N then after_prefix p' s' else None
  | _ :: _, [] => None
  end.

(** Recursive descent; every recursive call comes after at least one
    character has been read, so fuel above the length of the text is never
    used up. *)
Fixpoint json_value (fuel : nat) (s : jsstring) : option (json * jsstring) :=
  match fuel with
  | 0 => None
  | S n =>
      match skip_ws s with
      | [] => None
      | c :: s1 =>
          if (c =? 91)%N then                      (* [ *)
            match skip_ws s1 with
            | d :: s2 =>
                if (d =? 93)%N then Some (JArray [], s2)
                else '(vs, r) ← json_elements n s1; Some (JArray vs, r)
            | [] => None
            end
          else if (c =? 123)%N then                (* { *)
            match skip_ws s1 with
            | d :: s2 =>
                if (d =? 125)%N then Some (JObject [], s2)
                else '(ms, r) ← json_members n s1; Some (JObject ms, r)
            | [] => None
            end
          else if (c =? 34)%N then
            '(str, r) ← json_string s1; Some (JString str, r)
          else if (c =? 45)%N || is_digit c then
            '(lexeme, r) ← json_number (c :: s1); Some (JNumber lexeme, r)
          else
            match after_prefix (js "null") (c :: s1),
                  after_prefix (js "true") (c :: s1),
                  after_prefix (js "false") (c :: s1) with
            | Some r, _, _ => Some (JNull, r)
            | _, Some r, _ => Some (JBool true, r)
            | _, _, Some r => Some (JBool false, r)
            | _, _, _ => None
            end
      end
  end
with json_elements (fuel : nat) (s : jsstring)
  : option (list json * jsstring) :=
  match fuel with
  | 0 => None
  | S n =>
      '(v, r) ← json_value n s;
      match skip_ws r with
      | c :: r1 =>
          if (c =? 44)%N then
            '(vs, r2) ← json_elements n r1; Some (v :: vs, r2)
          else if (c =? 93)%N then Some ([v], r1)
          else None
      | [] => None
      end
  end
with json_members (fuel : nat) (s : jsstring)
  : option (list (jsstring * json) * jsstring) :=
  match fuel with
  | 0 => None
  | S n =>
      match skip_ws s with
      | q :: s1 =>
          if (q =? 34)%N then
            '(key, r) ← json_string s1;
            match skip_ws r with
            | c :: r1 =>
                if (c =? 58)%N then
                  '(v, r2) ← json_value n r1;
                  match skip_ws r2 with
                  | d :: r3 =>
                      if (d =? 44)%N then
                        '(ms, r4) ← json_members n r3;
                        Some ((key, v) :: ms, r4)
                      else if (d =? 125)%N then Some ([(key, v)], r3)
                      else None
                  | [] => None
                  end
                else None
            | [] => None
            end
          else None
      | [] => None
      end
  end.

Definition JSON_parse (text : jsstring) : option json :=
  match json_value (2 * length text + 2) text with
  | Some (v, rest) =>
      match skip_ws rest with [] => Some v | _ :: _ => None end
  | None => None
  end.

(** ** Entity extractor: extractEntitiesFromText (services/geminiService.ts) *)

(** What is thrown inside the [try] block. *)
Inductive exn :=
  | SyntaxError
  | TypeError
  | Error (message : jsstring).

(** The outcome of the generateContent call: it is rejected with an
    exception, or it resolves to a response whose [text] may be missing. *)
Inductive response :=
  | Rejected (e : exn)
  | Response (text : option jsstring).

Definition isArray (v : json) : bool :=
  match v with JArray _ => true | _ => false end.

Definition empty_error : jsstring := js "AI returned an empty response.".
Definition not_array_error : jsstring :=
  js "AI response is not in the expected array format.".
Definition malformed_error : jsstring :=
  js "Failed to parse the AI's response. The data may be malformed.".
Definition service_error : jsstring :=
  js "Failed to extract entities from the document. The AI model returned an error.".

(** The body of the [try] block. *)
Definition try_extract (r : response) : exn + json :=
  match r with
  | Rejected e => inl e
  | Response None => inl TypeError
  | Response (Some text) =>
      let jsonResponse := trim text in
      if negb (truthy jsonResponse) then inl (Error empty_error)
      else
        match JSON_parse jsonResponse with
        | None => inl SyntaxError
        | Some parsedData =>
            if negb (isArray parsedData) then inl (Error not_array_error)
            else inr parsedData
        end
  end.

(** The [catch] block: a [SyntaxError] becomes the malformed-data error,
    anything else the service error. [inl message] is the [Error] the call
    is rejected with. *)
Definition extractEntitiesFromText (r : response) : jsstring + json :=
  match try_extract r with
  | inr parsedData => inr parsedData
  | inl SyntaxError => inl malformed_error
  | inl _ => inl service_error
  end.

(** ** The state of the components and their handlers

    A handler is modelled by the state it leaves once it has run to its
    end, the setters applied in the order of the code; handlers are taken
    one at a time. *)

(** The value of a rejected promise: an [Error] with its message, or
    anything else. *)
Inductive thrown :=
  | ThrownError (message : jsstring)
  | ThrownOther.

Module App.

Record State := mkState {
  isProcessing : bool;
  isReadingFile : bool;
  file : option File;
  documentText : option jsstring;
  extractedData : option json;
  error : option jsstring;
}.

Definition initial : State := mkState false false None None None None.

Definition setIsProcessing (v : bool) (st : State) : State :=
  mkState v (isReadingFile st) (file st) (documentText st)
          (extractedData st) (error st).
Definition setIsReadingFile (v : bool) (st : State) : State :=
  mkState (isProcessing st) v (file st) (documentText st)
          (extractedData st) (error st).
Definition setFile (v : option File) (st : State) : State :=
  mkState (isProcessing st) (isReadingFile st) v (documentText st)
          (extractedData st) (error st).
Definition setDocumentText (v : option jsstring) (st : State) : State :=
  mkState (isProcessing st) (isReadingFile st) (file st) v
          (extractedData st) (error st).
Definition setExtractedData (v : option json) (st : State) : State :=
  mkState (isProcessing st) (isReadingFile st) (file st) (documentText st)
          v (error st).
Definition setError (v : option jsstring) (st : State) : State :=
  mkState (isProcessing st) (isReadingFile st) (file st) (documentText st)
          (extractedData st) v.

Definition no_content_error : jsstring :=
  js "No document content to process.".
Definition no_key_error : jsstring :=
  js "API_KEY is not configured. Cannot process document.".

(** [!!documentText]: there is a text and it is not empty. *)
Definition hasContent (st : State) : bool :=
  match documentText st with Some text => truthy text | None => false end.

(** The effect that runs when [file] has changed. Without a file the
    document text is dropped. With one, the file is read; when the read
    fails the file is set back to none, which runs the effect once more. *)
Definition fileEffect (st : State) : State :=
  match file st with
  | None => setDocumentText None st
  | Some f =>
      let st1 := setExtractedData None (setError None
                   (setIsReadingFile true st)) in
      let st2 :=
        match readFileContent f with
        | inr text => setDocumentText (Some text) st1
        | inl message =>
            setDocumentText None
              (setFile None
                 (setDocumentText None (setError (Some message) st1)))
        end in
      setIsReadingFile false st2
  end.

(** [onFileChange] of the upload area, which is [setFile]. *)
Definition onFileChange (f : option File) (st : State) : State :=
  fileEffect (setFile f st).

(** handleProcessDocument. [apiKey] tells whether the key is configured
    (the single-file build checks it; the service module of the other
    build refuses to load without it, so there it is always true), and [r]
    is what the service answers if it is called. *)
Definition handleProcessDocument (apiKey : bool) (r : response) (st : State)
  : State :=
  if negb (hasContent st) then setError (Some no_content_error) st
  else if negb apiKey then setError (Some no_key_error) st
  else
    let st1 := setExtractedData None (setError None
                 (setIsProcessing true st)) in
    let st2 :=
      match extractEntitiesFromText r with
      | inr data => setExtractedData (Some data) st1
      | inl message => setError (Some message) st1
      end in
    setIsProcessing false st2.

(** The process button of FileUpload. *)
Definition buttonDisabled (st : State) : bool :=
  isProcessing st || isReadingFile st || negb (hasContent st).

(** What the user can do: choose or clear the file, or press the process
    button, which does nothing while it is disabled. *)
Inductive event :=
  | FileChange (f : option File)
  | Process (r : response).

Definition step (apiKey : bool) (st : State) (ev : event) : State :=
  match ev with
  | FileChange f => onFileChange f st
  | Process r =>
      if buttonDisabled st then st else handleProcessDocument apiKey r st
  end.

Definition run (apiKey : bool) (events : list event) : State :=
  foldl (step apiKey) initial events.

End App.

Module Verification.

(** The uploaded file is what reading its text gives. *)
Record State := mkState {
  groundTruthFile : option (thrown + jsstring);
  isVerifying : bool;
  error : option jsstring;
  comparisonResult : option ComparisonResult;
}.

Definition initial : State := mkState None false None None.

Definition verify_error : jsstring :=
  js "Failed to parse or compare CSV file.".

(** handleFileChange: a chosen file replaces the old one and clears the
    result and the error; without a file nothing happens. *)
Definition handleFileChange (f : option (thrown + jsstring)) (st : State)
  : State :=
  match f with
  | Some _ => mkState f (isVerifying st) None None
  | None => st
  end.

(** handleVerify, with the state it leaves. *)
Definition handleVerify (aiData : list ExtractedEntity) (st : State) : State :=
  match groundTruthFile st with
  | None => st
  | Some f =>
      let outcome :=
        match f with
        | inl (ThrownError message) => inl message
        | inl ThrownOther => inl verify_error
        | inr csvText => handleVerify aiData csvText
        end in
      match outcome with
      | inr result => mkState (groundTruthFile st) false None (Some result)
      | inl message => mkState (groundTruthFile st) false (Some message) None
      end
  end.

(** What the user can do: choose a file (or cancel the choice), or press
    the verify button. *)
Inductive event :=
  | FileChange (f : option (thrown + jsstring))
  | Verify.

Definition step (aiData : list ExtractedEntity) (st : State) (ev : event)
  : State :=
  match ev with
  | FileChange f => handleFileChange f st
  | Verify => handleVerify aiData st
  end.

Definition run (aiData : list ExtractedEntity) (events : list event) : State :=
  foldl (step aiData) initial events.

End Verification.

(** ** Vocabulary of the statements *)

(** Putting two lists back together: position by position, [mask] says
    which of the two lists the next element is taken from. *)
Fixpoint unsplit {A} (mask : list bool) (yes no : list A) : list A :=
  match mask with
  | [] => []
  | true :: mask' =>
      match yes with y :: yes' => y :: unsplit mask' yes' no | [] => [] end
  | false :: mask' =>
      match no with n :: no' => n :: unsplit mask' yes no' | [] => [] end
  end.

(** The identifiers of a record list, as a list. *)
Definition ids (data : list ExtractedEntity) : list jsstring := pan <$> data.

(** The text of one page as the specification words it: the fragments
    with one space between neighbours, then a line feed. A fragment is the
    [str] of an entry, empty for an entry without one. *)
Definition page_block (items : list item) : jsstring :=
  match item_str <$> items with
  | [] => []
  | fragment :: fragments =>
      fragment ++ concat ((λ g, SPACE :: g) <$> fragments)
  end ++ [LF].

(** A quote character is written as two, any other character as itself. *)
Definition escaped (s : jsstring) : jsstring :=
  c ← s; if decide (c = QUOTE) then [QUOTE; QUOTE] else [c].

(** An exported row as the specification words it: the four field values,
    each between double quotes, separated by commas. *)
Definition export_line (r : ExtractedEntity) : jsstring :=
  [QUOTE] ++ pan r ++ [QUOTE; COMMA; QUOTE]
  ++ relation_label (relation r) ++ [QUOTE; COMMA; QUOTE]
  ++ escaped (entityName r) ++ [QUOTE; COMMA; QUOTE]
  ++ entityType_label (entityType r) ++ [QUOTE].

(** Whether a JSON value is an object with a member of that name. *)
Definition has_field (name : jsstring) (v : json) : bool :=
  match v with
  | JObject members => bool_decide (name ∈ members.*1)
  | _ => false
  end.

(** Whether a JSON value carries the four fields of a record. *)
Definition carries_all_fields (v : json) : bool :=
  has_field (js "pan") v && has_field (js "relation") v
  && has_field (js "entityName") v && has_field (js "entityType") v.

(** Neither the first nor the last character is white space. *)
Definition no_outer_ws (s : jsstring) : Prop :=
  (∀ c, head s = Some c → is_ws c = false)
  ∧ (∀ c, last s = Some c → is_ws c = false).

(** The invariant of the records the import returns. *)
Definition valid_record (e : ExtractedEntity) : Prop :=
  pan e ≠ [] ∧ entityName e ≠ []
  ∧ (QUOTE ∉ pan e) ∧ (QUOTE ∉ entityName e)
  ∧ no_outer_ws (pan e) ∧ no_outer_ws (entityName e)
  ∧ relation e = PAN_Of
  ∧ (entityType e = Organisation ∨ entityType e = Name).

(** The three columns the import asks for, and those of them that the
    header row (the first line, split at commas, each name trimmed and
    freed of quotes) does not have. *)
Definition required_columns : list jsstring :=
  [js "PAN"; js "Entity Name"; js "Entity Type"].

Definition missing_columns (csvText : jsstring) : list jsstring :=
  filter (λ c, c ∉ parse_headers (split_lines (trim csvText) !!! 0))
         required_columns.

(** The data row of the example: a quoted name with a comma inside, then
    the identifier, then the type. *)
Definition acme_row : jsstring :=
  [QUOTE] ++ js "Acme, Inc." ++ [QUOTE] ++ js ",ABCDE1234F,Organisation".

(** A field value that the export followed by the import gives back: not
    empty, free of double quotes and of line terminators, and neither
    beginning nor ending with white space. *)
Definition plain (s : jsstring) : Prop :=
  s ≠ [] ∧ (QUOTE ∉ s)
  ∧ Forall (λ c, is_line_terminator c = false) s
  ∧ no_outer_ws s.

(** What may stand between the quotes of an exported field. *)
Definition inner (f : jsstring) : Prop :=
  (QUOTE ∉ f) ∧ Forall (λ c, is_line_terminator c = false) f.

(** Where the lookahead of the field expression holds: at the end of the
    line and before a comma. *)
Definition at_field_end (rest : jsstring) : Prop :=
  rest = [] ∨ ∃ r, rest = COMMA :: r.

Definition round_trips (r : ExtractedEntity) : Prop :=
  plain (pan r) ∧ plain (entityName r).

(** The rows that the loop of the import keeps. *)
Definition kept (e : ExtractedEntity) : Prop :=
  truthy (pan e) && truthy (entityName e) = true.

#[global] Instance kept_dec e : Decision (kept e).
Proof. unfold kept. apply _. Defined.

(** The values of the four fields of an exported row. *)
Definition fields (r : ExtractedEntity) : list jsstring :=
  [pan r; relation_label (relation r); double_quotes (entityName r);
   entityType_label (entityType r)].

(** A line that splitting at line breaks gives back: no line feed inside,
    no carriage return at its end. *)
Definition one_line (l : jsstring) : Prop := (LF ∉ l) ∧ last l ≠ Some CR.

(** The fields of a data row as they are written: a bare run of
    characters, a run between double quotes, or nothing at all. *)
Inductive cell :=
  | Bare (f : jsstring)
  | Quoted (f : jsstring)
  | Blank.

Definition cell_text (c : cell) : jsstring :=
  match c with Bare f => f | Quoted f => quoted f | Blank => [] end.

(** What the import reads from a cell: nothing from a blank one. *)
Definition cell_value (c : cell) : option jsstring :=
  match c with Bare f => Some f | Quoted f => Some f | Blank => None end.

Definition cell_ok (c : cell) : Prop :=
  match c with
  | Bare f => f ≠ [] ∧ (QUOTE ∉ f) ∧ (COMMA ∉ f)
  | Quoted f => inner f
  | Blank => True
  end.

(** The number of line feeds of a text. *)
Definition count_LF (s : jsstring) : nat := length (filter (λ c, c = LF) s).

(** A text made of white space only. *)
Definition blank (s : jsstring) : Prop := Forall (λ c, is_ws c = true) s.

(** What holds of the state of the application between two handlers:
    nothing is in progress; an error and a result are never there
    together; a result is an array and needs the key; a document text is
    what reading the file that is chosen now gave. *)
Definition App_inv (apiKey : bool) (st : App.State) : Prop :=
  App.isProcessing st = false
  ∧ App.isReadingFile st = false
  ∧ ¬ (is_Some (App.error st) ∧ is_Some (App.extractedData st))
  ∧ (∀ v, App.extractedData st = Some v → isArray v = true ∧ apiKey = true)
  ∧ (∀ text, App.documentText st = Some text →
       ∃ f, App.file st = Some f ∧ readFileContent f = inr text).

(** What holds of the state of the verification between two handlers:
    nothing is in progress; an error and a result are never there
    together; a result is the comparison with the records of the file
    that is chosen now. *)
Definition Verification_inv (aiData : list ExtractedEntity)
    (st : Verification.State) : Prop :=
  Verification.isVerifying st = false
  ∧ ¬ (is_Some (Verification.error st)
       ∧ is_Some (Verification.comparisonResult st))
  ∧ (∀ r, Verification.comparisonResult st = Some r →
       ∃ csvText gt,
         Verification.groundTruthFile st = Some (inr csvText)
         ∧ parseCsv csvText = inr gt
         ∧ r = compare aiData gt).

(** The text the field expression matches for a cell: none for a blank
    one. *)
Definition cell_match (c : cell) : option jsstring :=
  match c with
  | Bare f => Some f
  | Quoted f => Some (quoted f)
  | Blank => None
  end.

(** * Properties *)

(** ** The comparison *)

Section compare.
Implicit Types aiData gt : list ExtractedEntity.

Lemma elem_of_pans (x : jsstring) gt : x ∈ pans gt ↔ x ∈ ids gt.
Proof. unfold pans, ids. apply elem_of_list_to_set. Qed.

Lemma matches_filter aiData gt :
  matches (compare aiData gt) = filter (λ d, pan d ∈ ids gt) aiData.
Proof. apply list_filter_iff. intros d. apply elem_of_pans. Qed.

Lemma aiOnly_filter aiData gt :
  aiOnly (compare aiData gt) = filter (λ d, pan d ∉ ids gt) aiData.
Proof. apply list_filter_iff. intros d. by rewrite elem_of_pans. Qed.

Lemma groundTruthOnly_filter aiData gt :
  groundTruthOnly (compare aiData gt)
  = filter (λ g, pan g ∉ ids aiData) gt.
Proof. apply list_filter_iff. intros d. by rewrite elem_of_pans. Qed.

Lemma unsplit_filter {A} (P : A → Prop) `{!∀ x, Decision (P x)} (l : list A) :
  unsplit ((λ x, bool_decide (P x)) <$> l)
          (filter P l) (filter (λ x, ¬ P x) l) = l.
Proof.
  induction l as [|x l IH]; [done|].
  rewrite fmap_cons, !filter_cons.
  destruct (decide (P x)) as [HP|HP].
  - rewrite bool_decide_eq_true_2 by done.
    destruct (decide (¬ P x)); [done|]. simpl. by rewrite IH.
  - rewrite bool_decide_eq_false_2 by done.
    destruct (decide (¬ P x)); [|done]. simpl. by rewrite IH.
Qed.
End compare.

(** C1. The comparison partitions by identifier membership: [matches] is
    the extracted records whose identifier occurs among the ground-truth
    identifiers, [aiOnly] those whose identifier does not, and
    [groundTruthOnly] the ground-truth records whose identifier no
    extracted record has. Every extracted record is in exactly one of
    [matches] and [aiOnly], duplicates included (the two lists together
    are a permutation of the input and share no record). Only identifiers
    are looked at: another ground truth with the same identifiers gives
    the same classification, and equality is exact (a differs from A).
    With extracted A, B and ground truth B, C the result is [B], [A], [C]. *)
Theorem compare_partitions_by_identifier (aiData gt : list ExtractedEntity) :
  let r := compare aiData gt in
  matches r = filter (λ d, pan d ∈ ids gt) aiData
  ∧ aiOnly r = filter (λ d, pan d ∉ ids gt) aiData
  ∧ groundTruthOnly r = filter (λ g, pan g ∉ ids aiData) gt
  ∧ matches r ++ aiOnly r ≡ₚ aiData
  ∧ (∀ d, d ∈ matches r → d ∉ aiOnly r)
  ∧ (∀ gt', ids gt' = ids gt →
       matches (compare aiData gt') = matches r
       ∧ aiOnly (compare aiData gt') = aiOnly r)
  ∧ (∀ n t, compare [mkEntity (js "a") PAN_Of n t]
                    [mkEntity (js "A") PAN_Of n t]
            = mkComparison [] [mkEntity (js "a") PAN_Of n t]
                           [mkEntity (js "A") PAN_Of n t])
  ∧ (∀ t1 t2,
       let A := mkEntity (js "A") PAN_Of (js "X") Name in
       let B := mkEntity (js "B") PAN_Of (js "Y") Organisation in
       compare [A; B] [mkEntity (js "B") PAN_Of (js "Y") t1;
                       mkEntity (js "C") PAN_Of (js "Z") t2]
       = mkComparison [B] [A] [mkEntity (js "C") PAN_Of (js "Z") t2]).
Proof.
  intros r. subst r.
  rewrite matches_filter, aiOnly_filter, groundTruthOnly_filter.
  split_and!.
  - done.
  - done.
  - done.
  - apply filter_app_complement.
  - intros d [Hin _]%list_elem_of_filter [Hout _]%list_elem_of_filter. done.
  - intros gt' Hids. by rewrite matches_filter, aiOnly_filter, Hids.
  - intros n t. by vm_compute.
  - intros t1 t2 A B. by vm_compute.
Qed.

(** C10. The comparison returns the records themselves, in input order:
    [matches] and [aiOnly] are sublists of the extracted list and putting
    them back together by original position gives the extracted list
    again; [groundTruthOnly] is a sublist of the ground-truth list. *)
Theorem compare_preserves_order (aiData gt : list ExtractedEntity) :
  let r := compare aiData gt in
  matches r `sublist_of` aiData
  ∧ aiOnly r `sublist_of` aiData
  ∧ groundTruthOnly r `sublist_of` gt
  ∧ unsplit ((λ d, bool_decide (pan d ∈ ids gt)) <$> aiData)
            (matches r) (aiOnly r) = aiData.
Proof.
  intros r. subst r. split_and!.
  - apply sublist_filter.
  - apply sublist_filter.
  - apply sublist_filter.
  - rewrite matches_filter, aiOnly_filter.
    apply (unsplit_filter (λ d, pan d ∈ ids gt)).
Qed.

(** ** The CSV export *)

Section export.
Lemma double_quotes_escaped s : double_quotes s = escaped s.
Proof.
  unfold escaped. induction s as [|c s IH]; [done|].
  simpl. rewrite IH. destruct (N.eqb_spec c QUOTE) as [->|Hc].
  - by rewrite decide_True.
  - by rewrite decide_False.
Qed.

Lemma csv_row_export_line r : csv_row r = export_line r.
Proof.
  unfold csv_row, export_line, quoted. simpl.
  rewrite double_quotes_escaped. by rewrite <- !app_assoc.
Qed.

Lemma join_cons sep (p : jsstring) ps :
  join sep (p :: ps) = p ++ concat ((λ q, sep ++ q) <$> ps).
Proof.
  revert p. induction ps as [|q ps IH]; intros p.
  - simpl. by rewrite app_nil_r.
  - change (join sep (p :: q :: ps)) with (p ++ sep ++ join sep (q :: ps)).
    rewrite IH. simpl. by rewrite <- app_assoc.
Qed.

Lemma csvContent_lines records :
  csvContent records
  = js "PAN,Relation,Entity Name,Entity Type"
    ++ concat ((λ r, LF :: export_line r) <$> records).
Proof.
  unfold csvContent. rewrite join_cons. f_equal.
  rewrite <- list_fmap_compose. f_equal. apply list_fmap_ext.
  intros _ r _. simpl. by rewrite csv_row_export_line.
Qed.

Lemma last_export_line r : last (export_line r) = Some QUOTE.
Proof. unfold export_line. by rewrite !app_assoc, last_snoc. Qed.

Lemma last_csvContent records : last (csvContent records) ≠ Some LF.
Proof.
  rewrite csvContent_lines.
  destruct records as [|r records _] using rev_ind.
  - by vm_compute.
  - rewrite fmap_app, concat_app, !last_app.
    replace (last (concat ((λ r, LF :: export_line r) <$> [r])))
      with (Some QUOTE); [done|].
    cbn [fmap list_fmap concat app].
    by rewrite app_nil_r, last_cons, last_export_line.
Qed.
End export.

(** C8. The exported CSV is the header row, with the labels exactly
    PAN,Relation,Entity Name,Entity Type, followed by one row per record in
    input order, each row preceded by a line feed (so rows are joined by
    line feeds and the text does not end in one); in a row every field
    value stands between double quotes, and a double quote inside the
    entity name is written twice. *)
Theorem csv_export_format (records : list ExtractedEntity) :
  handleDownloadCsv (Some records) = Some (csvContent records)
  ∧ csvContent records
    = js "PAN,Relation,Entity Name,Entity Type"
      ++ concat ((λ r, LF :: export_line r) <$> records)
  ∧ last (csvContent records) ≠ Some LF.
Proof.
  split_and!.
  - done.
  - apply csvContent_lines.
  - apply last_csvContent.
Qed.

(** ** The text normaliser *)

Section normaliser.
Lemma pageText_block items : pageText items ++ [LF] = page_block items.
Proof.
  unfold pageText, page_block.
  destruct (item_str <$> items) as [|fragment fragments]; [done|].
  by rewrite join_cons.
Qed.

(** The loop, started at page [i] with [fullText] accumulated, when the
    pages from [i] on are the ones of [pages]. *)
Lemma read_pages_concat doc pages : ∀ i fullText,
  (∀ k items, pages !! k = Some items → getPage doc (i + k) = inr items) →
  read_pages doc i (length pages) fullText
  = inr (fullText ++ concat (page_block <$> pages)).
Proof.
  induction pages as [|items pages IH]; intros i fullText Hget.
  - simpl. by rewrite app_nil_r.
  - simpl. rewrite <- (Nat.add_0_r i) at 1.
    rewrite (Hget 0 items eq_refl), IH.
    + by rewrite <- !app_assoc, <- pageText_block, <- app_assoc.
    + intros k its Hk. replace (S i + k) with (i + S k) by lia.
      by apply Hget.
Qed.
End normaliser.

(** C7. For a PDF whose pages 1..N have the text content [pages], the
    normalised text is the concatenation, in page order, of one block per
    page: the page's fragments with a single space between neighbours,
    followed by one line feed. (A fragment is the [str] of an entry of the
    text content; an entry without [str] counts as an empty fragment.) *)
Theorem pdf_text_page_by_page
    (doc : PDFDocument) (pages : list (list item)) (text : jsstring) :
  numPages doc = length pages →
  (∀ k items, pages !! k = Some items → getPage doc (S k) = inr items) →
  readFileContent (mkFile (js "application/pdf") text (inr doc))
  = inr (concat (page_block <$> pages))
  ∧ length (page_block <$> pages) = numPages doc
  ∧ Forall (λ block, last block = Some LF) (page_block <$> pages).
Proof.
  intros Hn Hget. split_and!.
  - unfold readFileContent. cbn [file_type file_pdf].
    rewrite decide_False by (by vm_compute).
    rewrite decide_True by done.
    rewrite Hn. by rewrite (read_pages_concat doc pages 1 []).
  - by rewrite length_fmap.
  - apply Forall_fmap, Forall_true. intros items. simpl.
    unfold page_block. apply last_snoc.
Qed.

Lemma pdf_text_page_by_page_witness :
  let doc :=
    mkPDF 2 (λ i, match i with
                  | 1 => inr [TextItem (js "Dear"); TextItem (js "Sir")]
                  | 2 => inr [TextItem (js "PAN"); TextMarkedContent;
                              TextItem (js "ABCDE1234F")]
                  | _ => inl (js "Invalid page request")
                  end) in
  readFileContent (mkFile (js "application/pdf") [] (inr doc))
  = inr (js "Dear Sir" ++ [LF] ++ js "PAN  ABCDE1234F" ++ [LF]).
Proof.
  intros doc.
  refine (proj1 (pdf_text_page_by_page doc
    [[TextItem (js "Dear"); TextItem (js "Sir")];
     [TextItem (js "PAN"); TextMarkedContent; TextItem (js "ABCDE1234F")]]
    [] eq_refl _)).
  intros [|[|k]] items Hk; simpl in Hk; by simplify_eq.
Defined.

(** ** The entity extractor *)

Section extractor.
Lemma JSON_parse_empty : JSON_parse [] = None.
Proof. done. Qed.

Lemma truthy_nil s : truthy s = false ↔ s = [].
Proof. by destruct s. Qed.

(** What the call answers when the payload is not blank. *)
Lemma extract_parsed text :
  trim text ≠ [] →
  extractEntitiesFromText (Response (Some text))
  = match JSON_parse (trim text) with
    | None => inl malformed_error
    | Some v => if isArray v then inr v else inl service_error
    end.
Proof.
  intros Hne. unfold extractEntitiesFromText, try_extract.
  destruct (truthy (trim text)) eqn:Ht.
  - simpl. destruct (JSON_parse (trim text)) as [v|]; [|done].
    by destruct (isArray v).
  - by apply truthy_nil in Ht.
Qed.

Lemma extract_blank text :
  trim text = [] →
  extractEntitiesFromText (Response (Some text)) = inl service_error.
Proof.
  intros Hb. unfold extractEntitiesFromText, try_extract. by rewrite Hb.
Qed.
End extractor.

(** C2. What the code does with an empty payload: the error of a blank
    (empty or white-space-only) response is the very error of a rejected
    service call, so the caller cannot tell the two apart; it does differ
    from the error of a payload that is not JSON. The message written for
    the empty response never leaves the function. *)
Theorem empty_response_is_reported_as_service_error :
  (∀ text, trim text = [] →
     extractEntitiesFromText (Response (Some text)) = inl service_error)
  ∧ extractEntitiesFromText (Response (Some [])) = inl service_error
  ∧ extractEntitiesFromText (Response (Some (js "   "))) = inl service_error
  ∧ (∀ message,
       extractEntitiesFromText (Rejected (Error message)) = inl service_error)
  ∧ extractEntitiesFromText (Response (Some (js "{not json")))
    = inl malformed_error
  ∧ service_error ≠ malformed_error
  ∧ service_error ≠ empty_error.
Proof.
  split_and!; try done.
  apply extract_blank.
Qed.

(** C5, as the code has it. A payload that parses as JSON is only checked
    for being an array: an array is returned as it is, whatever its
    elements are (no check of the four fields, no repair, no coercion),
    and any other value makes the call fail. *)
Theorem extract_checks_array_only (text : jsstring) (v : json) :
  JSON_parse (trim text) = Some v →
  if isArray v
  then extractEntitiesFromText (Response (Some text)) = inr v
  else ∃ message, extractEntitiesFromText (Response (Some text)) = inl message.
Proof.
  intros Hv. assert (trim text ≠ []) as Hne.
  { intros Hb. by rewrite Hb in Hv. }
  rewrite (extract_parsed _ Hne), Hv.
  destruct (isArray v); [done|]. by eexists.
Qed.

Lemma extract_checks_array_only_witness :
  JSON_parse (trim (js " [1, {}] "))
  = Some (JArray [JNumber (js "1"); JObject []])
  ∧ extractEntitiesFromText (Response (Some (js " [1, {}] ")))
    = inr (JArray [JNumber (js "1"); JObject []]).
Proof.
  split; [by vm_compute|].
  apply (extract_checks_array_only (js " [1, {}] ")
           (JArray [JNumber (js "1"); JObject []])).
  by vm_compute.
Defined.

(** C5 fails as stated: an array whose only element is an empty object,
    which carries none of the four fields, is returned and not refused;
    and an object, which is no array, is refused with the service error
    and not with the malformed-data error. *)
Lemma extract_does_not_validate_elements :
  extractEntitiesFromText (Response (Some (js "[{}]")))
  = inr (JArray [JObject []])
  ∧ carries_all_fields (JObject []) = false
  ∧ extractEntitiesFromText (Response (Some (js "{}"))) = inl service_error
  ∧ inl service_error ≠@{jsstring + json} inl malformed_error.
Proof. split_and!; by vm_compute. Qed.

(** ** Strings: trimming and quote removal *)

Section strings.
Implicit Types s : jsstring.

Lemma trimStart_suffix s : trimStart s `suffix_of` s.
Proof.
  induction s as [|c s IH]; [done|]. simpl.
  destruct (is_ws c); [by apply suffix_cons_r|done].
Qed.

Lemma head_trimStart s c : head (trimStart s) = Some c → is_ws c = false.
Proof.
  induction s as [|d s IH]; [done|]. simpl.
  destruct (is_ws d) eqn:Hd; [done|]. simpl. by intros [= <-].
Qed.

Lemma trimEnd_prefix s : trimEnd s `prefix_of` s.
Proof.
  unfold trimEnd. apply prefix_suffix_reverse.
  rewrite reverse_involutive. apply trimStart_suffix.
Qed.

Lemma last_trimEnd s c : last (trimEnd s) = Some c → is_ws c = false.
Proof. unfold trimEnd. rewrite last_reverse. apply head_trimStart. Qed.

Lemma head_prefix (t s : jsstring) c :
  t `prefix_of` s → head t = Some c → head s = Some c.
Proof. intros [k ->]. by destruct t. Qed.

Lemma trim_no_outer_ws s : no_outer_ws (trim s).
Proof.
  unfold trim. split; intros c Hc.
  - apply (head_trimStart s). by eapply head_prefix, Hc; apply trimEnd_prefix.
  - by apply (last_trimEnd (trimStart s)).
Qed.

Lemma elem_of_trim s c : c ∈ trim s → c ∈ s.
Proof.
  unfold trim. intros Hc.
  destruct (trimEnd_prefix (trimStart s)) as [k1 Hk1].
  destruct (trimStart_suffix s) as [k2 Hk2].
  rewrite Hk2, Hk1. set_solver.
Qed.

Lemma not_elem_of_strip_quotes s : QUOTE ∉ strip_quotes s.
Proof. unfold strip_quotes. rewrite list_elem_of_filter. tauto. Qed.

Lemma strip_quotes_id s : QUOTE ∉ s → strip_quotes s = s.
Proof.
  unfold strip_quotes. induction s as [|c s IH]; [done|].
  rewrite not_elem_of_cons. intros [Hc Hs].
  rewrite filter_cons, decide_True by done. by rewrite IH.
Qed.

Lemma trimStart_id s :
  (∀ c, head s = Some c → is_ws c = false) → trimStart s = s.
Proof. destruct s as [|c s]; [done|]. intros H. simpl. by rewrite (H c). Qed.

Lemma trim_id s : no_outer_ws s → trim s = s.
Proof.
  intros [Hh Hl]. unfold trim, trimEnd. rewrite (trimStart_id s Hh).
  rewrite trimStart_id; [apply reverse_involutive|].
  intros c. rewrite head_reverse. apply Hl.
Qed.

Lemma truthy_true s : truthy s = true ↔ s ≠ [].
Proof. by destruct s. Qed.
End strings.

(** ** The matcher never runs out of fuel

    The rounds given to a repetition and to the global match are bounded
    by the length of the input; any larger bound gives the same answer. *)

Section fuel.
Implicit Types (r : regex) (s : jsstring) (k : cont).

Lemma one_ext p s k k' : (∀ s', k s' = k' s') → one p s k = one p s k'.
Proof. intros H. destruct s as [|c s]; [done|]. simpl. by destruct (p c). Qed.

Lemma star_loop_ext g (m : jsstring → cont → option jsstring) :
  (∀ s k k', (∀ s', k s' = k' s') → m s k = m s k') →
  ∀ n s k k', (∀ s', k s' = k' s') →
  star_loop g m n s k = star_loop g m n s k'.
Proof.
  intros Hm n. induction n as [|n IH]; intros s k k' H; [done|].
  cbn [star_loop]. rewrite (H s).
  rewrite (Hm s _ (λ s', if decide (length s' < length s)
                         then star_loop g m n s' k' else None)); [done|].
  intros s'. case_decide; [by apply IH|done].
Qed.

Lemma rmatch_ext r : ∀ s k k',
  (∀ s', k s' = k' s') → rmatch r s k = rmatch r s k'.
Proof.
  induction r as [c| |cs| | |r1 IH1 r2 IH2|r1 IH1 r2 IH2|g r1 IH1|r1 IH1];
    intros s k k' H; cbn [rmatch].
  - by apply one_ext.
  - by apply one_ext.
  - by apply one_ext.
  - by apply one_ext.
  - destruct s; [apply H|done].
  - apply IH1. intros s'. by apply IH2.
  - by rewrite (IH1 s k k' H), (IH2 s k k' H).
  - by apply star_loop_ext.
  - by rewrite (H s).
Qed.

Lemma star_loop_fuel g r : ∀ n n' s k,
  length s < n → length s < n' →
  star_loop g (rmatch r) n s k = star_loop g (rmatch r) n' s k.
Proof.
  induction n as [|n IH]; intros n' s k Hn Hn'; [lia|].
  destruct n' as [|n']; [lia|]. cbn [star_loop].
  rewrite (rmatch_ext r s _
    (λ s', if decide (length s' < length s)
           then star_loop g (rmatch r) n' s' k else None)); [done|].
  intros s'. case_decide; [apply IH; lia|done].
Qed.

(** A match ends at or after the position it started from. *)
Lemma one_shorter p s k x :
  one p s k = Some x → ∃ s', length s' ≤ length s ∧ k s' = Some x.
Proof.
  destruct s as [|c s]; [done|]. simpl. destruct (p c); [|done].
  intros Hk. exists s. split; [lia|done].
Qed.

Lemma star_loop_shorter g (m : jsstring → cont → option jsstring) :
  (∀ s k x, m s k = Some x → ∃ s', length s' ≤ length s ∧ k s' = Some x) →
  ∀ n s k x, star_loop g m n s k = Some x →
  ∃ s', length s' ≤ length s ∧ k s' = Some x.
Proof.
  intros Hm n. induction n as [|n IH]; intros s k x; [done|].
  cbn [star_loop].
  assert (∀ y, m s (λ s', if decide (length s' < length s)
                           then star_loop g m n s' k else None) = Some y →
               ∃ s', length s' ≤ length s ∧ k s' = Some y) as Hagain.
  { intros y (s1 & Hs1 & Hk1)%Hm. case_decide; [|done].
    apply IH in Hk1 as (s2 & Hs2 & Hk2). exists s2. split; [lia|done]. }
  destruct g.
  - destruct (m s _) as [y|] eqn:Hy.
    + intros [= <-]. by apply Hagain.
    + intros Hk. by exists s.
  - destruct (k s) as [y|] eqn:Hy.
    + intros [= <-]. by exists s.
    + apply Hagain.
Qed.

Lemma rmatch_shorter r : ∀ s k x,
  rmatch r s k = Some x → ∃ s', length s' ≤ length s ∧ k s' = Some x.
Proof.
  induction r as [c| |cs| | |r1 IH1 r2 IH2|r1 IH1 r2 IH2|g r1 IH1|r1 IH1];
    intros s k x; cbn [rmatch].
  - apply one_shorter.
  - apply one_shorter.
  - apply one_shorter.
  - apply one_shorter.
  - destruct s; [|done]. intros Hk. by exists [].
  - intros (s1 & Hs1 & (s2 & Hs2 & Hk)%IH2)%IH1.
    exists s2. split; [lia|done].
  - destruct (rmatch r1 s k) as [y|] eqn:Hy.
    + intros [= <-]. by apply IH1.
    + apply IH2.
  - by apply star_loop_shorter.
  - destruct (rmatch r1 s Some); [|done]. intros Hk. by exists s.
Qed.

Lemma match_all_fuel re : ∀ n n' s,
  length s < n → length s < n' → match_all re n s = match_all re n' s.
Proof.
  induction n as [|n IH]; intros n' s Hn Hn'; [lia|].
  destruct n' as [|n']; [lia|]. cbn [match_all].
  assert (match s with [] => [] | _ :: s' => match_all re n s' end
          = match s with [] => [] | _ :: s' => match_all re n' s' end) as ->.
  { destruct s as [|c s]; [done|]. simpl in *. apply IH; lia. }
  destruct (rmatch re s Some) as [rest|] eqn:Hrest; [|done].
  apply rmatch_shorter in Hrest as (s' & Hs' & [= ->]).
  destruct (take (length s - length rest) s) as [|c m] eqn:Htake; [done|].
  f_equal. apply IH.
  - assert (length (take (length s - length rest) s) ≠ 0)
      by (by rewrite Htake).
    rewrite length_take in *. lia.
  - assert (length (take (length s - length rest) s) ≠ 0)
      by (by rewrite Htake).
    rewrite length_take in *. lia.
Qed.

Lemma matchAll_fuel re s n :
  length s < n → matchAll re s = match_all re n s.
Proof. intros Hn. unfold matchAll. apply match_all_fuel; lia. Qed.
End fuel.

(** ** The CSV import *)

Section import.
Implicit Types rows lines : list jsstring.

Lemma parse_rows_filter p n t rows : ∀ result,
  parse_rows p n t rows result
  = result ++ filter kept (row_entity p n t <$> rows).
Proof.
  induction rows as [|line rows IH]; intros result.
  - simpl. by rewrite app_nil_r.
  - cbn [parse_rows fmap list_fmap]. rewrite IH, filter_cons.
    destruct (decide (kept (row_entity p n t line))) as [Hk|Hk];
      unfold kept in Hk.
    + rewrite Hk. by rewrite <- app_assoc.
    + apply not_true_is_false in Hk. by rewrite Hk.
Qed.

Lemma value_at_clean ms i :
  (QUOTE ∉ value_at (strip_quotes <$> ms) i)
  ∧ no_outer_ws (value_at (strip_quotes <$> ms) i).
Proof.
  unfold value_at. rewrite list_lookup_fmap.
  destruct (ms !! i) as [m|]; simpl.
  - split; [|apply trim_no_outer_ws].
    intros Hq%elem_of_trim. by apply not_elem_of_strip_quotes in Hq.
  - split; [by apply not_elem_of_nil|]. by split.
Qed.

Lemma row_entity_valid p n t line :
  kept (row_entity p n t line) → valid_record (row_entity p n t line).
Proof.
  unfold kept. rewrite andb_true_iff, !truthy_true. intros [Hp Hn].
  unfold valid_record. split_and!; try done.
  - apply value_at_clean.
  - apply value_at_clean.
  - apply value_at_clean.
  - apply value_at_clean.
  - destruct (entityType _); auto.
Qed.

Lemma parse_rows_valid p n t rows :
  Forall valid_record (parse_rows p n t rows []).
Proof.
  rewrite parse_rows_filter. simpl. apply Forall_forall.
  intros e [Hk He]%list_elem_of_filter.
  apply list_elem_of_fmap in He as [line [-> _]].
  by apply row_entity_valid.
Qed.
End import.

(** C9. Every record the import returns has a non-empty identifier and a
    non-empty entity name, neither of which contains a double quote nor
    begins or ends with white space; its relation is the fixed tag and its
    entity type one of the two values. *)
Theorem parseCsv_records_valid (csvText : jsstring)
    (records : list ExtractedEntity) :
  parseCsv csvText = inr records → Forall valid_record records.
Proof.
  unfold parseCsv. case_decide; [by intros [= <-]|].
  repeat case_match; try done. intros [= <-]. apply parse_rows_valid.
Qed.

Lemma parseCsv_records_valid_witness :
  let csvText :=
    js "PAN,Entity Name,Entity Type" ++ [LF]
    ++ quoted (js "AB" ++ [QUOTE; QUOTE] ++ js "CD")
    ++ js ", x y ,Organisation" ++ [LF]
    ++ quoted [] ++ js ",nobody,Name" in
  let record := mkEntity (js "ABCD") PAN_Of (js "x y") Organisation in
  parseCsv csvText = inr [record] ∧ Forall valid_record [record].
Proof.
  intros csvText record. split; [by vm_compute|].
  apply (parseCsv_records_valid csvText). by vm_compute.
Defined.

Section header_check.
Lemma indexOf_None (xs : list jsstring) x : indexOf xs x = None ↔ x ∉ xs.
Proof.
  induction xs as [|y xs IH]; simpl.
  - split; [intros _; apply not_elem_of_nil|done].
  - rewrite not_elem_of_cons. case_decide as Hy.
    + split; [done|]. intros [Hne _]. by subst.
    + rewrite fmap_None, IH. split; [by intros ?; split|by intros [_ ?]].
Qed.

Lemma filter_nil_Forall {A} (P : A → Prop) `{!∀ x, Decision (P x)} l :
  Forall (λ x, ¬ P x) l → filter P l = [].
Proof.
  induction 1 as [|x l Hx _ IH]; [done|].
  by rewrite filter_cons, decide_False.
Qed.

Lemma missing_columns_nil csvText :
  missing_columns csvText = []
  ↔ ∀ c, c ∈ required_columns
         → c ∈ parse_headers (split_lines (trim csvText) !!! 0).
Proof.
  unfold missing_columns. split.
  - intros Hnil c Hc. destruct (decide (c ∈ parse_headers
      (split_lines (trim csvText) !!! 0))) as [|Hout]; [done|].
    assert (c ∈ @nil jsstring) as Hin; [|by apply not_elem_of_nil in Hin].
    rewrite <- Hnil. by apply list_elem_of_filter.
  - intros Hall. apply filter_nil_Forall, Forall_forall.
    intros c Hc Hout. by apply Hout, Hall.
Qed.

Lemma parseCsv_cases csvText :
  parseCsv csvText
  = if decide (length (split_lines (trim csvText)) < 2) then inr []
    else if decide (missing_columns csvText = []) then
      parseCsv csvText
    else inl headers_error.
Proof.
  case_decide as Hlen; [unfold parseCsv; by rewrite decide_True|].
  case_decide as Hmiss; [done|].
  unfold parseCsv. rewrite decide_False by done.
  destruct (indexOf _ (js "PAN")) as [p|] eqn:Hp; [|done].
  destruct (indexOf _ (js "Entity Name")) as [n|] eqn:Hn; [|done].
  destruct (indexOf _ (js "Entity Type")) as [t|] eqn:Ht; [|done].
  destruct Hmiss. apply missing_columns_nil. intros c Hc.
  unfold required_columns in Hc.
  destruct (decide (c ∈ parse_headers (split_lines (trim csvText) !!! 0)))
    as [|Hout]; [done|].
  apply indexOf_None in Hout.
  set_unfold in Hc. destruct Hc as [->|[->|[->|[]]]]; congruence.
Qed.

Lemma parseCsv_present csvText :
  ¬ length (split_lines (trim csvText)) < 2 →
  missing_columns csvText = [] →
  ∃ records, parseCsv csvText = inr records.
Proof.
  intros Hlen Hmiss. unfold parseCsv. rewrite decide_False by done.
  rewrite missing_columns_nil in Hmiss.
  assert (∀ c, c ∈ required_columns → is_Some
    (indexOf (parse_headers (split_lines (trim csvText) !!! 0)) c)) as Hidx.
  { intros c Hc. apply not_eq_None_Some. rewrite indexOf_None.
    intros Hout. by apply Hout, Hmiss. }
  destruct (Hidx (js "PAN")) as [p ->]; [set_solver|].
  destruct (Hidx (js "Entity Name")) as [n ->]; [set_solver|].
  destruct (Hidx (js "Entity Type")) as [t ->]; [set_solver|].
  by eexists.
Qed.
End header_check.

(** C4, as the code has it. The import fails exactly when the text has at
    least two lines and one of the three required columns is absent from
    the header row; a text of fewer than two lines gives the empty list
    whatever its header, and the data rows play no part in the failure.
    The error is always the same one, whose message lists all three
    column names; it does not say which of them are absent. *)
Theorem parseCsv_fails_iff (csvText : jsstring) :
  let lines := split_lines (trim csvText) in
  ((∃ message, parseCsv csvText = inl message)
   ↔ 2 ≤ length lines ∧ missing_columns csvText ≠ [])
  ∧ (∀ message, parseCsv csvText = inl message → message = headers_error)
  ∧ (length lines < 2 → parseCsv csvText = inr []).
Proof.
  intros lines. subst lines. split_and!.
  - split.
    + intros [message Hfail]. rewrite parseCsv_cases in Hfail.
      case_decide as Hlen; [done|]. split; [lia|].
      intros Hmiss. destruct (parseCsv_present csvText Hlen Hmiss) as [rs Hrs].
      rewrite decide_True in Hfail by done. congruence.
    + intros [Hlen Hmiss]. exists headers_error.
      rewrite parseCsv_cases, decide_False by lia.
      by rewrite decide_False.
  - intros message. rewrite parseCsv_cases.
    case_decide as Hlen; [done|]. case_decide as Hmiss; [|congruence].
    destruct (parseCsv_present csvText Hlen Hmiss) as [rs ->]. done.
  - intros Hlen. rewrite parseCsv_cases. by rewrite decide_True.
Qed.

(** C4 fails as stated: a one-line text without any of the three columns
    does not fail, and two texts with different columns absent (only
    Entity Type in the first; PAN and Entity Name in the second) fail with
    the same error, which therefore does not name the absent ones. *)
Lemma parseCsv_header_check_counterexample :
  parseCsv (js "Surname") = inr []
  ∧ missing_columns (js "Surname") = required_columns
  ∧ parseCsv (js "PAN,Entity Name" ++ [LF] ++ js "X,Y") = inl headers_error
  ∧ missing_columns (js "PAN,Entity Name" ++ [LF] ++ js "X,Y")
    = [js "Entity Type"]
  ∧ parseCsv (js "Entity Type" ++ [LF] ++ js "Name") = inl headers_error
  ∧ missing_columns (js "Entity Type" ++ [LF] ++ js "Name")
    = [js "PAN"; js "Entity Name"].
Proof. split_and!; by vm_compute. Qed.

(** C6. With a header that puts the entity name first, the identifier
    second and the entity type third, the data row of the example is split
    into exactly three fields, the quoted one keeping its comma, and gives
    one record: the name without its delimiting quotes, the identifier,
    and the type Organisation. The record is among those returned
    whatever the other rows are, and is the whole result when the row is
    the only one. *)
Theorem acme_row_parses (csvText header : jsstring) (rows : list jsstring) :
  split_lines (trim csvText) = header :: rows →
  acme_row ∈ rows →
  indexOf (parse_headers header) (js "Entity Name") = Some 0 →
  indexOf (parse_headers header) (js "PAN") = Some 1 →
  indexOf (parse_headers header) (js "Entity Type") = Some 2 →
  let record :=
    mkEntity (js "ABCDE1234F") PAN_Of (js "Acme, Inc.") Organisation in
  matchAll field_re acme_row
  = [quoted (js "Acme, Inc."); js "ABCDE1234F"; js "Organisation"]
  ∧ row_values acme_row
    = [js "Acme, Inc."; js "ABCDE1234F"; js "Organisation"]
  ∧ (∃ records, parseCsv csvText = inr records ∧ record ∈ records)
  ∧ (rows = [acme_row] → parseCsv csvText = inr [record]).
Proof.
  intros Hlines Hrow Hname Hpan Htype record.
  assert (parseCsv csvText
          = inr (filter kept (row_entity 1 0 2 <$> rows))) as Hparse.
  { unfold parseCsv. rewrite Hlines.
    destruct rows as [|row rows]; [by apply elem_of_nil in Hrow|].
    rewrite decide_False by (simpl; lia).
    change ((header :: row :: rows) !!! 0) with header.
    rewrite Hname, Hpan, Htype. by rewrite skipn_cons, drop_0, parse_rows_filter. }
  assert (row_entity 1 0 2 acme_row = record) as Hrecord by (by vm_compute).
  split_and!; [by vm_compute..| |].
  - eexists. split; [exact Hparse|].
    apply list_elem_of_filter. split; [by vm_compute|].
    rewrite <- Hrecord. by apply list_elem_of_fmap_2.
  - intros ->. rewrite Hparse. by vm_compute.
Qed.

Lemma acme_row_parses_witness :
  let csvText := js "Entity Name,PAN,Entity Type" ++ [LF] ++ acme_row in
  split_lines (trim csvText) = [js "Entity Name,PAN,Entity Type"; acme_row]
  ∧ parseCsv csvText
    = inr [mkEntity (js "ABCDE1234F") PAN_Of (js "Acme, Inc.") Organisation].
Proof.
  intros csvText. split; [by vm_compute|].
  refine (proj2 (proj2 (proj2
    (acme_row_parses csvText (js "Entity Name,PAN,Entity Type") [acme_row]
       _ _ _ _ _))) eq_refl); try (by vm_compute).
  apply list_elem_of_here.
Defined.

(** ** The field expression on exported rows *)

Section field_re.
Implicit Types f rest : jsstring.

(** The lazy run of [.] up to the closing quote. *)
Lemma lazy_dot_until_quote f : ∀ n rest (k : cont) r,
  inner f → length f < n → k rest = Some r →
  star_loop false (rmatch Dot) n (f ++ QUOTE :: rest)
    (λ s, rmatch (Chr QUOTE) s k) = Some r.
Proof.
  induction f as [|c f IH]; intros n rest k r [Hq Hlt] Hn Hk.
  - destruct n as [|n]; [simpl in Hn; lia|]. simpl. by rewrite Hk.
  - destruct n as [|n]; [simpl in Hn; lia|].
    apply not_elem_of_cons in Hq as [Hc Hq].
    apply Forall_cons in Hlt as [Hcl Hlt].
    cbn [star_loop app rmatch one].
    assert ((c =? QUOTE)%N = false) as Hc' by (apply N.eqb_neq; congruence).
    rewrite Hc', Hcl. cbn [negb].
    rewrite decide_True by (simpl; lia).
    apply IH; [done|simpl in Hn; lia|done].
Qed.

Lemma lookahead_at_field_end rest :
  at_field_end rest →
  rmatch field_end rest Some = Some rest.
Proof. intros [->|[r ->]]; reflexivity. Qed.

Lemma field_re_unfold s :
  rmatch field_re s Some
  = match rmatch quoted_run s (λ s', rmatch field_end s' Some) with
    | Some x => Some x
    | None => rmatch bare_run s (λ s', rmatch field_end s' Some)
    end.
Proof. reflexivity. Qed.

Lemma quoted_run_unfold s k :
  rmatch quoted_run (QUOTE :: s) k
  = star_loop false (rmatch Dot) (S (length s)) s
      (λ s', rmatch (Chr QUOTE) s' k).
Proof. reflexivity. Qed.

Lemma field_re_quoted f rest :
  inner f → at_field_end rest →
  rmatch field_re (quoted f ++ rest) Some = Some rest.
Proof.
  intros Hf Hrest. unfold quoted. rewrite <- !app_assoc. cbn [app].
  rewrite field_re_unfold, quoted_run_unfold.
  rewrite (lazy_dot_until_quote f _ rest _ rest);
    [done|done|rewrite length_app; lia|].
  by apply lookahead_at_field_end.
Qed.

Lemma field_re_comma rest : rmatch field_re (COMMA :: rest) Some = None.
Proof. reflexivity. Qed.

Lemma field_re_nil : rmatch field_re [] Some = None.
Proof. reflexivity. Qed.

Lemma match_all_nil n : match_all field_re n [] = [].
Proof. by destruct n. Qed.

Lemma take_matched (m rest : jsstring) :
  take (length (m ++ rest) - length rest) (m ++ rest) = m.
Proof.
  rewrite length_app. replace (length m + length rest - length rest)
    with (length m) by lia.
  by rewrite take_app_length.
Qed.

(** One step of the global match on a quoted field. *)
Lemma match_all_quoted_step n f rest :
  inner f → at_field_end rest →
  match_all field_re (S n) (quoted f ++ rest)
  = quoted f :: match_all field_re n rest.
Proof.
  intros Hf Hrest. cbn [match_all].
  rewrite field_re_quoted, take_matched by done. done.
Qed.

Lemma match_all_quoted fs : ∀ fuel,
  Forall inner fs →
  length (join [COMMA] (quoted <$> fs)) < fuel →
  match_all field_re fuel (join [COMMA] (quoted <$> fs)) = quoted <$> fs.
Proof.
  induction fs as [|f fs IH]; intros fuel Hfs Hfuel.
  - apply match_all_nil.
  - apply Forall_cons in Hfs as [Hf Hfs].
    destruct fuel as [|fuel]; [lia|].
    destruct fs as [|g fs].
    + cbn [fmap list_fmap join].
      rewrite <- (app_nil_r (quoted f)) at 1.
      rewrite match_all_quoted_step, match_all_nil; [done..|by left].
    + change (join [COMMA] (quoted <$> f :: g :: fs))
        with (quoted f ++ COMMA :: join [COMMA] (quoted <$> g :: fs)) in *.
      rewrite match_all_quoted_step; [|done|right; by eexists].
      assert (2 ≤ length (quoted f))
        by (unfold quoted; rewrite !length_app; simpl; lia).
      rewrite length_app in Hfuel. cbn [length] in Hfuel.
      destruct fuel as [|fuel]; [lia|].
      cbn [match_all]. rewrite field_re_comma, IH; [done|done|lia].
Qed.

Lemma strip_quotes_quoted f : QUOTE ∉ f → strip_quotes (quoted f) = f.
Proof.
  intros Hf. unfold strip_quotes, quoted.
  rewrite !filter_app, !filter_cons, filter_nil.
  rewrite decide_False by (intros H; by apply H).
  fold (strip_quotes f). rewrite (strip_quotes_id f Hf). apply app_nil_r.
Qed.

(** The fields of a line of quoted values are those values. *)
Lemma row_values_quoted fs :
  Forall inner fs → row_values (join [COMMA] (quoted <$> fs)) = fs.
Proof.
  intros Hfs. unfold row_values, matchAll.
  rewrite match_all_quoted by (done || lia).
  rewrite <- list_fmap_compose. rewrite <- (list_fmap_id fs) at 2.
  apply Forall_fmap_ext_1. eapply Forall_impl; [exact Hfs|].
  intros f [Hq _]. by apply strip_quotes_quoted.
Qed.
End field_re.

(** ** Splitting the exported text into lines *)

Section lines.
Implicit Types l rest : jsstring.

Lemma split_lines_line l : LF ∉ l → split_lines l = [l].
Proof.
  induction l as [|c l IH]; [done|].
  rewrite not_elem_of_cons. intros [Hc Hl].
  cbn [split_lines]. rewrite (IH Hl).
  assert ((c =? LF)%N = false) as -> by (apply N.eqb_neq; congruence).
  destruct (c =? CR)%N; [|done].
  destruct l as [|d l]; [done|].
  apply not_elem_of_cons in Hl as [Hd _].
  by assert ((d =? LF)%N = false) as -> by (apply N.eqb_neq; congruence).
Qed.

Lemma split_lines_app l rest :
  one_line l → split_lines (l ++ LF :: rest) = l :: split_lines rest.
Proof.
  induction l as [|c l IH]; intros [Hlf Hcr]; [done|].
  apply not_elem_of_cons in Hlf as [Hc Hl].
  cbn [split_lines app].
  assert ((c =? LF)%N = false) as -> by (apply N.eqb_neq; congruence).
  destruct l as [|d l].
  - destruct (N.eqb_spec c CR) as [->|_]; [done|]. done.
  - rewrite IH by (split; [done|by rewrite last_cons_cons in Hcr]).
    destruct (c =? CR)%N; [|done]. cbn [app].
    apply not_elem_of_cons in Hl as [Hd _].
    by assert ((d =? LF)%N = false) as -> by (apply N.eqb_neq; congruence).
Qed.

Lemma split_lines_join (ls : list jsstring) :
  ls ≠ [] → Forall one_line ls → split_lines (join [LF] ls) = ls.
Proof.
  induction ls as [|l ls IH]; [done|]. intros _ Hls.
  apply Forall_cons in Hls as [Hl Hls]. destruct ls as [|m ls].
  - apply split_lines_line, Hl.
  - change (join [LF] (l :: m :: ls)) with (l ++ LF :: join [LF] (m :: ls)).
    rewrite split_lines_app by done. by rewrite IH.
Qed.

Lemma inner_no_LF f : inner f → LF ∉ f.
Proof.
  intros [_ Hlt] Hin. rewrite Forall_forall in Hlt.
  by specialize (Hlt LF Hin).
Qed.

Lemma quoted_row_one_line fs :
  Forall inner fs → fs ≠ [] → one_line (join [COMMA] (quoted <$> fs)).
Proof.
  induction fs as [|f fs IH]; [done|]. intros Hfs _.
  apply Forall_cons in Hfs as [Hf Hfs].
  assert (LF ∉ quoted f) as Hq.
  { unfold quoted. rewrite !elem_of_app, !list_elem_of_singleton.
    intros [?|[?|?]]; [done| |done]. by apply (inner_no_LF f). }
  destruct fs as [|g fs].
  - split; [done|]. unfold quoted. cbn [fmap list_fmap join].
    by rewrite app_assoc, last_snoc.
  - change (join [COMMA] (quoted <$> f :: g :: fs))
      with (quoted f ++ COMMA :: join [COMMA] (quoted <$> g :: fs)).
    destruct IH as [IH1 IH2]; [done..|]. split.
    + rewrite elem_of_app, elem_of_cons. intros [?|[?|?]]; done.
    + rewrite last_app, last_cons.
      destruct (last (join [COMMA] (quoted <$> g :: fs))); done.
Qed.
End lines.

(** ** Export, then import *)

Section round_trip.
Implicit Types r : ExtractedEntity.

Lemma double_quotes_id s : QUOTE ∉ s → double_quotes s = s.
Proof.
  induction s as [|c s IH]; [done|].
  rewrite not_elem_of_cons. intros [Hc Hs]. simpl. rewrite (IH Hs).
  by assert ((c =? QUOTE)%N = false) as -> by (apply N.eqb_neq; congruence).
Qed.

Lemma plain_inner s : plain s → inner s.
Proof. intros (_ & ? & ? & _). by split. Qed.

Lemma relation_label_inner rel : inner (relation_label rel).
Proof. destruct rel. split; apply (bool_decide_unpack _); by vm_compute. Qed.

Lemma entityType_label_inner t : inner (entityType_label t).
Proof. destruct t; split; apply (bool_decide_unpack _); by vm_compute. Qed.

Lemma csv_row_fields r : csv_row r = join [COMMA] (quoted <$> fields r).
Proof. reflexivity. Qed.

Lemma fields_inner r : round_trips r → Forall inner (fields r).
Proof.
  intros [Hp Hn]. unfold fields. repeat apply Forall_cons_2.
  - by apply plain_inner.
  - apply relation_label_inner.
  - rewrite double_quotes_id by apply Hn. by apply plain_inner.
  - apply entityType_label_inner.
  - done.
Qed.

(** The loop body gives an exported record back. *)
Lemma row_entity_csv_row r :
  round_trips r → row_entity 0 2 3 (csv_row r) = r.
Proof.
  intros Hr. unfold row_entity.
  rewrite csv_row_fields, (row_values_quoted _ (fields_inner r Hr)).
  destruct Hr as [Hp Hn]. destruct r as [p rel n t]. simpl in *.
  unfold value_at, fields. simpl.
  rewrite (double_quotes_id n) by apply Hn.
  rewrite (trim_id p) by apply Hp. rewrite (trim_id n) by apply Hn.
  destruct rel. f_equal. by destruct t.
Qed.

Lemma kept_round_trips r : round_trips r → kept r.
Proof.
  intros [(Hp & _) (Hn & _)]. unfold kept.
  apply andb_true_iff. by rewrite !truthy_true.
Qed.

Lemma rows_back records :
  Forall round_trips records →
  filter kept (row_entity 0 2 3 <$> (csv_row <$> records)) = records.
Proof.
  induction 1 as [|r records Hr _ IH]; [done|].
  rewrite !fmap_cons, filter_cons, row_entity_csv_row by done.
  rewrite decide_True by (by apply kept_round_trips). by rewrite IH.
Qed.

Lemma csv_row_one_line r : round_trips r → one_line (csv_row r).
Proof.
  intros Hr. rewrite csv_row_fields.
  by apply quoted_row_one_line; [apply fields_inner|].
Qed.

Lemma csvContent_no_outer_ws records : no_outer_ws (csvContent records).
Proof.
  split; intros c.
  - rewrite csvContent_lines. by intros [= <-].
  - destruct records as [|r records _] using rev_ind.
    + by intros [= <-].
    + rewrite csvContent_lines, fmap_app, concat_app, !last_app.
      cbn [fmap list_fmap concat app].
      rewrite app_nil_r, last_cons, last_export_line. by intros [= <-].
Qed.

Lemma split_lines_csvContent records :
  Forall round_trips records →
  split_lines (csvContent records)
  = js "PAN,Relation,Entity Name,Entity Type" :: (csv_row <$> records).
Proof.
  intros Hrs. unfold csvContent. rewrite split_lines_join; [done|done|].
  apply Forall_cons. split.
  - split; [apply (bool_decide_unpack _)|]; by vm_compute.
  - apply Forall_fmap. eapply Forall_impl; [exact Hrs|].
    intros r Hr. by apply csv_row_one_line.
Qed.
End round_trip.

(** C3, as the code has it. For a record list in which every identifier
    and every entity name is not empty, contains no double quote and no
    line terminator, and neither begins nor ends with white space,
    importing the exported text gives the records back, in the same
    order: identifier, entity name and entity type are the originals
    (and the relation, having one value only, is too). *)
Theorem export_then_import (records : list ExtractedEntity) :
  Forall round_trips records →
  parseCsv (csvContent records) = inr records.
Proof.
  intros Hrs. unfold parseCsv.
  rewrite (trim_id _ (csvContent_no_outer_ws records)).
  rewrite (split_lines_csvContent _ Hrs).
  destruct records as [|r records]; [done|].
  rewrite decide_False by (simpl; lia).
  change ((_ :: _) !!! 0) with (js "PAN,Relation,Entity Name,Entity Type").
  change (indexOf _ (js "PAN")) with (Some 0).
  change (indexOf _ (js "Entity Name")) with (Some 2).
  change (indexOf _ (js "Entity Type")) with (Some 3).
  rewrite skipn_cons, drop_0, parse_rows_filter. cbn [app].
  by rewrite (rows_back _ Hrs).
Qed.

Lemma export_then_import_witness :
  let records :=
    [mkEntity (js "ABCDE1234F") PAN_Of (js "Acme, Inc. (HUF)") Organisation;
     mkEntity (js "PQRST6789U") PAN_Of (js "R. K. Traders") Name] in
  Forall round_trips records ∧ parseCsv (csvContent records) = inr records.
Proof.
  intros records.
  assert (Forall round_trips records) as Hrs.
  { repeat apply Forall_cons_2; [..|apply Forall_nil_2];
      (split; (split_and!;
        [done
        |apply (bool_decide_unpack _); by vm_compute
        |apply (bool_decide_unpack _); by vm_compute
        |split; intros c Hc; vm_compute in Hc; by simplify_eq])). }
  split; [exact Hrs|]. apply (export_then_import records Hrs).
Defined.

(** C3 fails as stated: each of these records has a non-empty identifier
    and a non-empty name, and does not come back. A double quote in the
    name is removed; white space around the name is trimmed; a carriage
    return inside the name breaks the quoted field, so that another text
    becomes the name and the type is lost; an identifier of one space is
    empty once trimmed and the record is dropped. *)
Lemma export_then_import_counterexample :
  let back name identifier :=
    parseCsv (csvContent [mkEntity identifier PAN_Of name Organisation]) in
  let record name := mkEntity (js "ABCDE1234F") PAN_Of name in
  back (js "The " ++ [QUOTE] ++ js "Best" ++ [QUOTE] ++ js " Traders")
       (js "ABCDE1234F")
  = inr [record (js "The Best Traders") Organisation]
  ∧ js "The Best Traders"
    ≠ js "The " ++ [QUOTE] ++ js "Best" ++ [QUOTE] ++ js " Traders"
  ∧ back (js " Acme") (js "ABCDE1234F") = inr [record (js "Acme") Organisation]
  ∧ back (js "Acme" ++ [CR] ++ js "Ltd") (js "ABCDE1234F")
    = inr [record (js ",Organisation") Name]
  ∧ back (js "Acme") (js " ") = inr [].
Proof. split_and!; by vm_compute. Qed.

(** * Further properties of the code *)

(** ** More on the comparison *)

Section compare_more.
Implicit Types aiData gt : list ExtractedEntity.

Lemma elem_of_ids_matches aiData gt x :
  x ∈ ids (matches (compare aiData gt)) ↔ x ∈ ids aiData ∧ x ∈ ids gt.
Proof.
  rewrite matches_filter. split.
  - intros (d & -> & [Hgt Hd]%list_elem_of_filter)%list_elem_of_fmap.
    split; [|done]. unfold ids. by apply list_elem_of_fmap_2.
  - intros [(d & -> & Hd)%list_elem_of_fmap Hgt].
    unfold ids at 1. apply list_elem_of_fmap_2.
    by apply list_elem_of_filter.
Qed.

Lemma filter_all {A} (P : A → Prop) `{!∀ x, Decision (P x)} (l : list A) :
  filter P l = l ↔ Forall P l.
Proof.
  split.
  - intros Hl. apply Forall_forall. intros x Hx. rewrite <- Hl in Hx.
    by apply list_elem_of_filter in Hx as [? _].
  - induction 1 as [|x l Hx _ IH]; [done|].
    by rewrite filter_cons, decide_True, IH.
Qed.

Lemma filter_none {A} (P : A → Prop) `{!∀ x, Decision (P x)} (l : list A) :
  filter P l = [] ↔ Forall (λ x, ¬ P x) l.
Proof.
  split; [|apply filter_nil_Forall].
  intros Hl. apply Forall_forall. intros x Hx HP.
  assert (x ∈ filter P l) as Hin by (by apply list_elem_of_filter).
  rewrite Hl in Hin. by apply not_elem_of_nil in Hin.
Qed.

Lemma compare_self data : compare data data = mkComparison data [] [].
Proof.
  assert (∀ d, d ∈ data → pan d ∈ ids data) as Hin.
  { intros d Hd. unfold ids. by apply list_elem_of_fmap_2. }
  pose proof (matches_filter data data) as Hm.
  pose proof (aiOnly_filter data data) as Ha.
  pose proof (groundTruthOnly_filter data data) as Hg.
  rewrite (proj2 (filter_all _ _)) in Hm by (by apply Forall_forall).
  rewrite (proj2 (filter_none _ _)) in Ha, Hg
    by (apply Forall_forall; intros d Hd Hout; by apply Hout, Hin).
  destruct (compare data data) as [m a g]. simpl in *. by subst.
Qed.
End compare_more.

(** X1. The ground-truth side of the partition: a ground-truth record is
    in [groundTruthOnly] exactly when no record of [matches] has its
    identifier. *)
Theorem compare_ground_truth_side (aiData gt : list ExtractedEntity) :
  let r := compare aiData gt in
  Forall (λ g, g ∈ groundTruthOnly r ↔ pan g ∉ ids (matches r)) gt.
Proof.
  intros r. subst r. apply Forall_forall. intros g Hg.
  rewrite groundTruthOnly_filter, list_elem_of_filter, elem_of_ids_matches.
  assert (pan g ∈ ids gt) by (unfold ids; by apply list_elem_of_fmap_2).
  tauto.
Qed.

(** X2. The verification is clean, nothing found by one side only,
    exactly when the two sides have the same identifiers; then every
    extracted record is a match. *)
Theorem compare_clean_iff (aiData gt : list ExtractedEntity) :
  let r := compare aiData gt in
  (aiOnly r = [] ∧ groundTruthOnly r = []
   ↔ ∀ x, x ∈ ids aiData ↔ x ∈ ids gt)
  ∧ (aiOnly r = [] → matches r = aiData).
Proof.
  intros r. subst r.
  rewrite matches_filter, aiOnly_filter, groundTruthOnly_filter.
  rewrite !filter_none, filter_all, !Forall_forall. split.
  - split.
    + intros [Hai Hgt] x. split.
      * intros (d & -> & Hd)%list_elem_of_fmap. specialize (Hai d Hd).
        by destruct (decide (pan d ∈ ids gt)).
      * intros (g & -> & Hg)%list_elem_of_fmap. specialize (Hgt g Hg).
        by destruct (decide (pan g ∈ ids aiData)).
    + intros Hsame. split.
      * intros d Hd Hout. apply Hout, Hsame. unfold ids.
        by apply list_elem_of_fmap_2.
      * intros g Hg Hout. apply Hout, Hsame. unfold ids.
        by apply list_elem_of_fmap_2.
  - intros Hai d Hd. specialize (Hai d Hd).
    by destruct (decide (pan d ∈ ids gt)).
Qed.

(** X3. The edges of the comparison: against itself a list is all
    matches; against an empty ground truth it is all on the extractor's
    side; an empty extraction leaves the whole ground truth on its side. *)
Theorem compare_edges (data : list ExtractedEntity) :
  compare data data = mkComparison data [] []
  ∧ compare data [] = mkComparison [] data []
  ∧ compare [] data = mkComparison [] [] data.
Proof.
  split_and!.
  - apply compare_self.
  - pose proof (matches_filter data []) as Hm.
    pose proof (aiOnly_filter data []) as Ha.
    rewrite (proj2 (filter_none _ _)) in Hm
      by (apply Forall_forall; intros d _ Hd; by apply elem_of_nil in Hd).
    rewrite (proj2 (filter_all _ _)) in Ha
      by (apply Forall_forall; intros d _ Hd; by apply elem_of_nil in Hd).
    destruct (compare data []) as [m a g] eqn:Hc. simpl in *. subst.
    f_equal. by injection Hc.
  - pose proof (groundTruthOnly_filter [] data) as Hg.
    rewrite (proj2 (filter_all _ _)) in Hg
      by (apply Forall_forall; intros d _ Hd; by apply elem_of_nil in Hd).
    destruct (compare [] data) as [m a g] eqn:Hc. simpl in *. subst.
    injection Hc as <- <- _. done.
Qed.

(** ** More on the text normaliser *)

Section normaliser_more.
(** The loop stops at the first page that cannot be read. *)
Lemma read_pages_fails doc message : ∀ k i todo fullText,
  k < todo →
  (∀ j, j < k → ∃ items, getPage doc (i + j) = inr items) →
  getPage doc (i + k) = inl message →
  read_pages doc i todo fullText = inl message.
Proof.
  induction k as [|k IH]; intros i todo fullText Hk Hread Hfail.
  - destruct todo as [|todo]; [lia|]. simpl.
    by rewrite Nat.add_0_r in Hfail; rewrite Hfail.
  - destruct todo as [|todo]; [lia|]. simpl.
    destruct (Hread 0) as [items Hitems]; [lia|].
    rewrite Nat.add_0_r in Hitems. rewrite Hitems. apply IH; [lia| |].
    + intros j Hj. replace (S i + j) with (i + S j) by lia.
      apply Hread. lia.
    + by replace (S i + k) with (i + S k) by lia.
Qed.

Lemma count_LF_app s t : count_LF (s ++ t) = count_LF s + count_LF t.
Proof. unfold count_LF. by rewrite filter_app, length_app. Qed.

Lemma count_LF_none s : LF ∉ s → count_LF s = 0.
Proof.
  intros Hs. unfold count_LF. rewrite (proj2 (filter_none _ s)); [done|].
  apply Forall_forall. by intros c Hc ->.
Qed.

Lemma LF_notin_join sep (parts : list jsstring) :
  LF ∉ sep → Forall (λ p, LF ∉ p) parts → LF ∉ join sep parts.
Proof.
  intros Hsep. induction 1 as [|p ps Hp Hps IH]; [apply not_elem_of_nil|].
  destruct ps as [|q ps]; [done|].
  change (join sep (p :: q :: ps)) with (p ++ sep ++ join sep (q :: ps)).
  rewrite !elem_of_app. tauto.
Qed.

Lemma count_LF_page_block items :
  Forall (λ it, LF ∉ item_str it) items → count_LF (page_block items) = 1.
Proof.
  intros Hitems. rewrite <- pageText_block, count_LF_app.
  rewrite count_LF_none; [done|]. unfold pageText.
  apply LF_notin_join; [by intros ?%list_elem_of_singleton|].
  by apply Forall_fmap.
Qed.

Lemma count_LF_blocks (pages : list (list item)) :
  Forall (Forall (λ it, LF ∉ item_str it)) pages →
  count_LF (concat (page_block <$> pages)) = length pages.
Proof.
  induction 1 as [|items pages Hitems _ IH]; [done|].
  rewrite fmap_cons. cbn [concat length].
  by rewrite count_LF_app, IH, count_LF_page_block.
Qed.
End normaliser_more.

(** X4. A PDF page that cannot be read fails the whole read: when the
    pages before page [k] are readable and page [k] is rejected with a
    message, that message is the result; nothing of the text of the
    earlier pages is kept, and the later pages play no part. *)
Theorem pdf_page_failure_fails_all
    (doc : PDFDocument) (k : nat) (message text : jsstring) :
  1 ≤ k ≤ numPages doc →
  (∀ j, 1 ≤ j < k → ∃ items, getPage doc j = inr items) →
  getPage doc k = inl message →
  readFileContent (mkFile (js "application/pdf") text (inr doc))
  = inl message.
Proof.
  intros Hk Hread Hfail. unfold readFileContent. cbn [file_type file_pdf].
  rewrite decide_False by (by vm_compute). rewrite decide_True by done.
  apply (read_pages_fails doc message (k - 1)); [lia| |].
  - intros j Hj. apply Hread. lia.
  - by replace (1 + (k - 1)) with k by lia.
Qed.

Lemma pdf_page_failure_fails_all_witness :
  let doc :=
    mkPDF 3 (λ i, match i with
                  | 1 => inr [TextItem (js "page one")]
                  | 2 => inl (js "Invalid PDF structure")
                  | _ => inr [TextItem (js "later")]
                  end) in
  readFileContent (mkFile (js "application/pdf") [] (inr doc))
  = inl (js "Invalid PDF structure").
Proof.
  intros doc.
  apply (pdf_page_failure_fails_all doc 2 (js "Invalid PDF structure") []).
  - simpl. lia.
  - intros j Hj. assert (j = 1) as -> by lia. by eexists.
  - done.
Defined.

(** X5. When no fragment of a readable PDF contains a line feed, the
    normalised text has exactly as many line feeds as the document has
    pages; and the text of a PDF with at least one page is never empty. *)
Theorem pdf_text_line_feeds
    (doc : PDFDocument) (pages : list (list item)) (text : jsstring) :
  numPages doc = length pages →
  (∀ k items, pages !! k = Some items → getPage doc (S k) = inr items) →
  ∃ fullText,
    readFileContent (mkFile (js "application/pdf") text (inr doc))
    = inr fullText
    ∧ (pages ≠ [] → fullText ≠ [])
    ∧ (Forall (Forall (λ it, LF ∉ item_str it)) pages →
       count_LF fullText = numPages doc).
Proof.
  intros Hn Hget. exists (concat (page_block <$> pages)). split_and!.
  - unfold readFileContent. cbn [file_type file_pdf].
    rewrite decide_False by (by vm_compute). rewrite decide_True by done.
    rewrite Hn. by rewrite (read_pages_concat doc pages 1 []).
  - destruct pages as [|items pages]; [done|]. intros _.
    rewrite fmap_cons. cbn [concat]. unfold page_block.
    intros Hnil. apply (f_equal length) in Hnil.
    rewrite !length_app in Hnil. simpl in Hnil. lia.
  - intros Hlf. rewrite Hn. by apply count_LF_blocks.
Qed.

Lemma pdf_text_line_feeds_witness :
  let pages := [[TextItem (js "Dear"); TextItem (js "Sir")];
                [TextMarkedContent; TextItem (js "ABCDE1234F")]] in
  let doc := mkPDF 2 (λ i, match pages !! (i - 1) with
                           | Some items => inr items
                           | None => inl (js "Invalid page request")
                           end) in
  ∃ fullText,
    readFileContent (mkFile (js "application/pdf") [] (inr doc))
    = inr fullText
    ∧ (pages ≠ [] → fullText ≠ [])
    ∧ (Forall (Forall (λ it, LF ∉ item_str it)) pages →
       count_LF fullText = numPages doc).
Proof.
  intros pages doc. apply (pdf_text_line_feeds doc pages []); [done|].
  intros [|[|k]] items Hk; simpl in Hk; by simplify_eq.
Defined.

(** ** More on the entity extractor *)

(** X6. Every outcome of the extraction call: it succeeds exactly on a
    response whose trimmed text parses to a JSON array, and returns that
    array; every failure carries one of two messages, the malformed-data
    message exactly when a [SyntaxError] was thrown (by the service call
    or by parsing a text that is not blank), the service message
    otherwise. No other error message leaves the function. *)
Theorem extract_outcomes (r : response) :
  match extractEntitiesFromText r with
  | inr v =>
      isArray v = true
      ∧ ∃ text, r = Response (Some text) ∧ JSON_parse (trim text) = Some v
  | inl message =>
      (message = malformed_error ∧
       (r = Rejected SyntaxError
        ∨ ∃ text, r = Response (Some text) ∧ trim text ≠ []
                  ∧ JSON_parse (trim text) = None))
      ∨ (message = service_error ∧ r ≠ Rejected SyntaxError
         ∧ ∀ text, r = Response (Some text) →
             trim text = [] ∨ ∃ v, JSON_parse (trim text) = Some v
                                   ∧ isArray v = false)
  end.
Proof.
  destruct r as [e|[text|]].
  - destruct e; simpl.
    + left. split; [done|]. by left.
    + right. split_and!; done.
    + right. split_and!; done.
  - destruct (decide (trim text = [])) as [Hb|Hne].
    + rewrite (extract_blank _ Hb). right. split_and!; [done..|].
      intros ? [= <-]. by left.
    + rewrite (extract_parsed _ Hne).
      destruct (JSON_parse (trim text)) as [v|] eqn:Hv.
      * destruct (isArray v) eqn:Ha.
        -- split; [done|]. by exists text.
        -- right. split_and!; [done..|]. intros ? [= <-]. right. by exists v.
      * left. split; [done|]. right. by exists text.
  - simpl. right. split_and!; done.
Qed.

(** ** The state of the application *)

Section app_state.
Lemma extract_inr_array r v :
  extractEntitiesFromText r = inr v → isArray v = true.
Proof.
  unfold extractEntitiesFromText, try_extract.
  destruct r as [e|[text|]]; [by destruct e| |done].
  destruct (truthy (trim text)); [|done]. simpl.
  destruct (JSON_parse (trim text)) as [w|]; [|done].
  destruct (isArray w) eqn:Hw; [|done]. simpl. by intros [= <-].
Qed.

Lemma App_inv_initial apiKey : App_inv apiKey App.initial.
Proof.
  unfold App_inv. simpl. split_and!; try done.
  by intros [[? ?] _].
Qed.

Lemma App_inv_onFileChange apiKey f st :
  App_inv apiKey st → App_inv apiKey (App.onFileChange f st).
Proof.
  intros (Hp & Hr & Hex & Harr & Hdoc). unfold App.onFileChange, App.fileEffect.
  destruct f as [f|]; simpl.
  - destruct (readFileContent f) as [message|text] eqn:Hread; simpl;
      (split_and!; [done|done| |done|]).
    + by intros [_ [? ?]].
    + done.
    + by intros [_ [? ?]].
    + intros ? [= <-]. by exists f.
  - by split_and!.
Qed.

Lemma App_inv_handleProcessDocument apiKey r st :
  App.hasContent st = true →
  App_inv apiKey st → App_inv apiKey (App.handleProcessDocument apiKey r st).
Proof.
  intros Hc (Hp & Hr & Hex & Harr & Hdoc). unfold App.handleProcessDocument.
  rewrite Hc. cbn [negb]. destruct apiKey; cbn [negb].
  - destruct (extractEntitiesFromText r) as [message|data] eqn:Hx; simpl;
      (split_and!; [done|done| | |done]).
    + by intros [_ [? ?]].
    + done.
    + by intros [[? ?] _].
    + intros v [= <-]. split; [|done]. by apply (extract_inr_array r).
  - simpl. split_and!; [done|done| |done|done].
    intros [_ [v Hv]]. by destruct (Harr v Hv).
Qed.

Lemma App_inv_step apiKey st ev :
  App_inv apiKey st → App_inv apiKey (App.step apiKey st ev).
Proof.
  intros Hinv. destruct ev as [f|r]; simpl.
  - by apply App_inv_onFileChange.
  - unfold App.buttonDisabled.
    destruct (App.hasContent st) eqn:Hc.
    + destruct (App.isProcessing st || App.isReadingFile st); simpl; [done|].
      by apply App_inv_handleProcessDocument.
    + by rewrite orb_true_r.
Qed.

Lemma App_inv_foldl apiKey events : ∀ st,
  App_inv apiKey st → App_inv apiKey (foldl (App.step apiKey) st events).
Proof.
  induction events as [|ev events IH]; intros st Hinv; [done|].
  simpl. by apply IH, App_inv_step.
Qed.
End app_state.

(** X7. Whatever the user does, one handler at a time (files chosen or
    cleared, the process button pressed while it is enabled, the service
    answering anything): once a handler has ended nothing is in progress,
    an error and an extraction result are never shown together, a result
    is always a JSON array obtained with the key configured, and the
    document text, when there is one, is what reading the file that is
    chosen now gave. *)
Theorem app_state_invariant (apiKey : bool) (events : list App.event) :
  App_inv apiKey (App.run apiKey events).
Proof. apply App_inv_foldl, App_inv_initial. Qed.

(** ** The state of the verification *)

Section verification_state.
Lemma Verification_inv_initial aiData :
  Verification_inv aiData Verification.initial.
Proof.
  unfold Verification_inv. simpl. split_and!; [done| |done].
  by intros [[? ?] _].
Qed.

Lemma Verification_inv_step aiData st ev :
  Verification_inv aiData st →
  Verification_inv aiData (Verification.step aiData st ev).
Proof.
  intros (Hv & Hex & Hres). destruct ev as [[f|]|]; simpl; [|done|].
  - split_and!; [done| |done]. by intros [[? ?] _].
  - unfold Verification.handleVerify.
    destruct (Verification.groundTruthFile st) as [[[message|]|csvText]|]
      eqn:Hfile; simpl;
      [| | |split_and!; [done|done|];
            intros r Hr; by destruct (Hres r Hr) as (? & ? & ? & _)].
    + split_and!; [done| |done]. by intros [_ [? ?]].
    + split_and!; [done| |done]. by intros [_ [? ?]].
    + unfold handleVerify.
      destruct (parseCsv csvText) as [message|gt] eqn:Hparse; simpl.
      * split_and!; [done| |done]. by intros [_ [? ?]].
      * split_and!; [done| |].
        -- by intros [[? ?] _].
        -- intros r [= <-]. by exists csvText, gt.
Qed.

Lemma Verification_inv_foldl aiData events : ∀ st,
  Verification_inv aiData st →
  Verification_inv aiData (foldl (Verification.step aiData) st events).
Proof.
  induction events as [|ev events IH]; intros st Hinv; [done|].
  simpl. by apply IH, Verification_inv_step.
Qed.
End verification_state.

(** X8. Whatever the user does in the verification panel, one handler at
    a time (ground-truth files chosen, readable or not, the verify button
    pressed): once a handler has ended no verification is in progress, an
    error and a comparison are never shown together, and a comparison
    that is shown is the one of the extracted records with the records
    parsed from the file that is chosen now. *)
Theorem verification_state_invariant
    (aiData : list ExtractedEntity) (events : list Verification.event) :
  Verification_inv aiData (Verification.run aiData events).
Proof. apply Verification_inv_foldl, Verification_inv_initial. Qed.

(** ** The field expression on well-formed rows *)

Section cells.
Implicit Types (f rest : jsstring) (cells : list cell).

Lemma bare_run_unfold c s k :
  rmatch bare_run (c :: s) k
  = if negb (existsb (N.eqb c) [QUOTE; COMMA])
    then star_loop true (rmatch (NoneOf [QUOTE; COMMA])) (S (length s)) s k
    else None.
Proof. reflexivity. Qed.

Lemma quoted_run_miss c s k :
  c ≠ QUOTE → rmatch quoted_run (c :: s) k = None.
Proof.
  intros Hc. unfold quoted_run. cbn [rmatch one].
  by assert ((c =? QUOTE)%N = false) as -> by (by apply N.eqb_neq).
Qed.

Lemma bare_char c :
  c ≠ QUOTE → c ≠ COMMA → negb (existsb (N.eqb c) [QUOTE; COMMA]) = true.
Proof.
  intros Hq Hc. cbn [existsb].
  assert ((c =? QUOTE)%N = false) as -> by (by apply N.eqb_neq).
  by assert ((c =? COMMA)%N = false) as -> by (by apply N.eqb_neq).
Qed.

Lemma star_loop_greedy_S (m : jsstring → cont → option jsstring) n s k :
  star_loop true m (S n) s k
  = match m s (λ s', if decide (length s' < length s)
                     then star_loop true m n s' k else None) with
    | Some r => Some r
    | None => k s
    end.
Proof. reflexivity. Qed.

Lemma rmatch_NoneOf_cons cs c s k :
  rmatch (NoneOf cs) (c :: s) k
  = if negb (existsb (N.eqb c) cs) then k s else None.
Proof. reflexivity. Qed.

(** The greedy run of bare characters goes up to the end of the field. *)
Lemma greedy_bare_run f : ∀ n rest (k : cont) r,
  QUOTE ∉ f → COMMA ∉ f → length f < n → at_field_end rest →
  k rest = Some r →
  star_loop true (rmatch (NoneOf [QUOTE; COMMA])) n (f ++ rest) k = Some r.
Proof.
  induction f as [|c f IH]; intros n rest k r Hq Hc Hn Hrest Hk;
    (destruct n as [|n]; [simpl in Hn; lia|]).
  - rewrite star_loop_greedy_S. cbn [app]. rewrite Hk.
    by destruct Hrest as [->|[r' ->]].
  - apply not_elem_of_cons in Hq as [Hq1 Hq].
    apply not_elem_of_cons in Hc as [Hc1 Hc].
    rewrite star_loop_greedy_S. cbn [app].
    rewrite rmatch_NoneOf_cons, bare_char by done.
    rewrite decide_True by (simpl; lia).
    rewrite (IH n rest k r); [done..|simpl in Hn; lia|done|done].
Qed.

Lemma field_re_bare f rest :
  f ≠ [] → QUOTE ∉ f → COMMA ∉ f → at_field_end rest →
  rmatch field_re (f ++ rest) Some = Some rest.
Proof.
  intros Hne Hq Hc Hrest. destruct f as [|c f]; [done|].
  apply not_elem_of_cons in Hq as [Hq1 Hq].
  apply not_elem_of_cons in Hc as [Hc1 Hc].
  cbn [app]. rewrite field_re_unfold, quoted_run_miss by done.
  rewrite bare_run_unfold, bare_char by done.
  apply greedy_bare_run; [done|done|rewrite length_app; lia|done|].
  by apply lookahead_at_field_end.
Qed.

Lemma match_all_step n (m rest : jsstring) :
  m ≠ [] → rmatch field_re (m ++ rest) Some = Some rest →
  match_all field_re (S n) (m ++ rest) = m :: match_all field_re n rest.
Proof.
  intros Hm Hmatch. cbn [match_all]. rewrite Hmatch, take_matched.
  by destruct m.
Qed.

Lemma match_all_comma n rest :
  match_all field_re (S n) (COMMA :: rest) = match_all field_re n rest.
Proof. reflexivity. Qed.

Lemma cell_step n c rest :
  cell_ok c → at_field_end rest →
  match_all field_re (S n) (cell_text c ++ rest)
  = match cell_match c with
    | Some m => m :: match_all field_re n rest
    | None => match_all field_re (S n) rest
    end.
Proof.
  intros Hc Hrest.
  destruct c as [f|f|]; cbn [cell_text cell_match cell_ok app] in *.
  - destruct Hc as (Hne & Hq & Hcm).
    by apply match_all_step, field_re_bare.
  - apply match_all_step; [by unfold quoted|by apply field_re_quoted].
  - done.
Qed.

Lemma omap_cons {A B} (g : A → option B) x l :
  omap g (x :: l)
  = match g x with Some y => y :: omap g l | None => omap g l end.
Proof. reflexivity. Qed.

Lemma cell_text_length c m :
  cell_ok c → cell_match c = Some m → 0 < length (cell_text c).
Proof.
  destruct c as [f|f|]; cbn [cell_ok cell_match cell_text]; [| |done].
  - intros (Hne & _) _. destruct f; [done|simpl; lia].
  - intros _ _. unfold quoted. rewrite !length_app. simpl. lia.
Qed.

Lemma match_all_cells cells : ∀ fuel,
  Forall cell_ok cells →
  length (join [COMMA] (cell_text <$> cells)) < fuel →
  match_all field_re fuel (join [COMMA] (cell_text <$> cells))
  = omap cell_match cells.
Proof.
  induction cells as [|c cells IH]; intros fuel Hcells Hfuel.
  - apply match_all_nil.
  - apply Forall_cons in Hcells as [Hc Hcells].
    destruct fuel as [|fuel]; [lia|].
    destruct cells as [|d cells].
    + cbn [fmap list_fmap join]. rewrite omap_cons.
      rewrite <- (app_nil_r (cell_text c)).
      rewrite cell_step; [|done|by left].
      destruct (cell_match c); by rewrite match_all_nil.
    + change (join [COMMA] (cell_text <$> c :: d :: cells))
        with (cell_text c ++ COMMA :: join [COMMA] (cell_text <$> d :: cells))
        in *.
      rewrite length_app in Hfuel. cbn [length] in Hfuel.
      rewrite cell_step; [|done|right; by eexists].
      rewrite omap_cons. destruct (cell_match c) as [m|] eqn:Hm.
      * pose proof (cell_text_length c m Hc Hm).
        destruct fuel as [|fuel]; [lia|].
        rewrite match_all_comma, IH; [done|done|lia].
      * rewrite match_all_comma, IH; [done|done|lia].
Qed.

Lemma strip_quotes_cell_match cells :
  Forall cell_ok cells →
  strip_quotes <$> omap cell_match cells = omap cell_value cells.
Proof.
  induction 1 as [|c cells Hc _ IH]; [done|].
  rewrite !omap_cons.
  destruct c as [f|f|]; cbn [cell_match cell_value cell_ok] in *.
  - destruct Hc as (_ & Hq & _). by rewrite fmap_cons, strip_quotes_id, IH.
  - destruct Hc as [Hq _]. by rewrite fmap_cons, strip_quotes_quoted, IH.
  - done.
Qed.
End cells.

(** X9. The tolerant field splitting on a well-formed row. When the
    fields of a line, separated by commas, are each either empty, or a
    non-empty run without double quote and comma, or a run between double
    quotes with no double quote and no line terminator inside, the
    matches are exactly the non-empty fields, in order, and the values
    are their contents with the delimiting quotes removed. An empty field
    gives no value at all, so the values after it stand one position
    further to the left. *)
Theorem row_values_of_cells (cells : list cell) :
  Forall cell_ok cells →
  let line := join [COMMA] (cell_text <$> cells) in
  matchAll field_re line = omap cell_match cells
  ∧ row_values line = omap cell_value cells.
Proof.
  intros Hcells line.
  assert (matchAll field_re line = omap cell_match cells) as Hm.
  { unfold matchAll, line. apply match_all_cells; [done|lia]. }
  split; [done|]. unfold row_values. rewrite Hm.
  by apply strip_quotes_cell_match.
Qed.

Lemma row_values_of_cells_witness :
  let cells := [Quoted (js "Acme, Inc."); Blank; Bare (js " ABCDE1234F ");
                Bare (js "Organisation"); Blank] in
  Forall cell_ok cells
  ∧ row_values (quoted (js "Acme, Inc.") ++ js ",, ABCDE1234F ,Organisation,")
    = [js "Acme, Inc."; js " ABCDE1234F "; js "Organisation"].
Proof.
  intros cells.
  assert (Forall cell_ok cells) as Hcells.
  { repeat apply Forall_cons_2; [..|apply Forall_nil_2]; simpl; try done;
      (split_and!; try done; apply (bool_decide_unpack _); by vm_compute). }
  split; [exact Hcells|].
  exact (proj2 (row_values_of_cells cells Hcells)).
Defined.

(** ** White space around the text, and line endings *)

Section tolerance.
Implicit Types (s pre post l rest : jsstring).

Lemma trimStart_blank s : blank s → trimStart s = [].
Proof. induction 1 as [|c s Hc _ IH]; [done|]. simpl. by rewrite Hc. Qed.

Lemma trimStart_blank_app pre s : blank pre → trimStart (pre ++ s) = trimStart s.
Proof. induction 1 as [|c pre Hc _ IH]; [done|]. simpl. by rewrite Hc. Qed.

Lemma trimStart_app s post :
  trimStart s ≠ [] → trimStart (s ++ post) = trimStart s ++ post.
Proof.
  induction s as [|c s IH]; [done|]. simpl.
  destruct (is_ws c); [apply IH|done].
Qed.

Lemma trimStart_nil_blank s : trimStart s = [] → blank s.
Proof.
  induction s as [|c s IH]; [by constructor|]. simpl.
  destruct (is_ws c) eqn:Hc; [|done]. intros Hs. constructor; [done|by apply IH].
Qed.

Lemma blank_reverse s : blank s → blank (reverse s).
Proof.
  unfold blank. rewrite !Forall_forall. intros H c Hc.
  apply H. by apply elem_of_reverse.
Qed.

Lemma trimEnd_app_blank s post : blank post → trimEnd (s ++ post) = trimEnd s.
Proof.
  intros Hpost. unfold trimEnd. rewrite reverse_app.
  by rewrite trimStart_blank_app by (by apply blank_reverse).
Qed.

Lemma trimEnd_nil : trimEnd [] = [].
Proof. reflexivity. Qed.

Lemma trim_padded pre s post :
  blank pre → blank post → trim (pre ++ s ++ post) = trim s.
Proof.
  intros Hpre Hpost. unfold trim. rewrite trimStart_blank_app by done.
  destruct (decide (trimStart s = [])) as [Hs|Hs].
  - rewrite Hs, trimEnd_nil.
    rewrite trimStart_blank_app by (by apply trimStart_nil_blank).
    by rewrite trimStart_blank.
  - rewrite trimStart_app by done. by apply trimEnd_app_blank.
Qed.





End tolerance.

(** X10. White space around the CSV text plays no part: blank lines,
    spaces or a byte-order mark before the header, and anything blank
    after the last row, give the same outcome as the text without them. *)
Theorem parseCsv_ignores_padding (pre csvText post : jsstring) :
  blank pre → blank post →
  parseCsv (pre ++ csvText ++ post) = parseCsv csvText.
Proof.
  intros Hpre Hpost. unfold parseCsv. by rewrite trim_padded.
Qed.

Lemma parseCsv_ignores_padding_witness :
  let csvText := js "PAN,Entity Name,Entity Type" ++ [LF]
                 ++ js "ABCDE1234F,Acme,Organisation" in
  parseCsv ([65279%N; LF] ++ csvText ++ [CR; LF; SPACE; LF])
  = parseCsv csvText.
Proof.
  intros csvText.
  apply (parseCsv_ignores_padding [65279%N; LF] csvText [CR; LF; SPACE; LF]);
    repeat constructor.
Defined.



(** ** Import of what was exported, and the rows behind the records *)

Section import_more.
Lemma split_lines_nonempty s : split_lines s ≠ [].
Proof.
  destruct s as [|c s]; [done|]. cbn [split_lines].
  destruct (c =? LF)%N; [done|].
  destruct (split_lines s) as [|p ps];
    (destruct (c =? CR)%N; [|done]);
    (destruct s as [|d s]; [done|]); by destruct (d =? LF)%N.
Qed.

Lemma header_one_line : one_line (js "PAN,Relation,Entity Name,Entity Type").
Proof. split; [apply (bool_decide_unpack _)|]; by vm_compute. Qed.

(** Whatever the records, the first line of the export is the header. *)
Lemma split_lines_export r records :
  split_lines (csvContent (r :: records))
  = js "PAN,Relation,Entity Name,Entity Type"
    :: split_lines (export_line r
                    ++ concat ((λ r, LF :: export_line r) <$> records)).
Proof.
  rewrite csvContent_lines, fmap_cons. cbn [concat app].
  by rewrite split_lines_app by apply header_one_line.
Qed.
End import_more.

(** X12. The import never refuses an export: for every record list,
    whatever the identifiers and names contain, the exported text passes
    the header check, so that verifying against an exported file never
    ends in the header error. *)
Theorem export_passes_header_check
    (aiData records : list ExtractedEntity) :
  (∃ groundTruth, parseCsv (csvContent records) = inr groundTruth)
  ∧ (∃ result, handleVerify aiData (csvContent records) = inr result).
Proof.
  assert (∃ groundTruth, parseCsv (csvContent records) = inr groundTruth)
    as [groundTruth Hgt].
  { destruct records as [|r records]; [by exists []|].
    unfold parseCsv.
    rewrite (trim_id _ (csvContent_no_outer_ws (r :: records))).
    rewrite split_lines_export.
    destruct (split_lines _) as [|row rows] eqn:Hrows;
      [by apply split_lines_nonempty in Hrows|].
    rewrite decide_False by (simpl; lia).
    change ((_ :: _) !!! 0) with (js "PAN,Relation,Entity Name,Entity Type").
    change (indexOf _ (js "PAN")) with (Some 0).
    change (indexOf _ (js "Entity Name")) with (Some 2).
    change (indexOf _ (js "Entity Type")) with (Some 3).
    by eexists. }
  split; [by exists groundTruth|].
  unfold handleVerify. rewrite Hgt. by eexists.
Qed.

(** X13. Verifying an extraction against its own export: when every
    identifier and name is not empty, has no double quote and no line
    terminator, and neither begins nor ends with white space, every
    record is a match and nothing is found by one side only. *)
Theorem verify_against_own_export (records : list ExtractedEntity) :
  Forall round_trips records →
  handleVerify records (csvContent records)
  = inr (mkComparison records [] []).
Proof.
  intros Hrs.
  assert (parseCsv (csvContent records) = inr records) as Hback.
  { unfold parseCsv.
    rewrite (trim_id _ (csvContent_no_outer_ws records)).
    rewrite (split_lines_csvContent _ Hrs).
    destruct records as [|r records]; [done|].
    rewrite decide_False by (simpl; lia).
    change ((_ :: _) !!! 0) with (js "PAN,Relation,Entity Name,Entity Type").
    change (indexOf _ (js "PAN")) with (Some 0).
    change (indexOf _ (js "Entity Name")) with (Some 2).
    change (indexOf _ (js "Entity Type")) with (Some 3).
    rewrite skipn_cons, drop_0, parse_rows_filter. cbn [app].
    by rewrite (rows_back _ Hrs). }
  unfold handleVerify. by rewrite Hback, compare_self.
Qed.

Lemma verify_against_own_export_witness :
  let records :=
    [mkEntity (js "ABCDE1234F") PAN_Of (js "Acme, Inc. (HUF)") Organisation;
     mkEntity (js "ABCDE1234F") PAN_Of (js "Acme Services") Organisation;
     mkEntity (js "PQRST6789U") PAN_Of (js "R. K. Traders") Name] in
  Forall round_trips records
  ∧ handleVerify records (csvContent records)
    = inr (mkComparison records [] []).
Proof.
  intros records.
  assert (Forall round_trips records) as Hrs.
  { repeat apply Forall_cons_2; [..|apply Forall_nil_2];
      (split; (split_and!;
        [done
        |apply (bool_decide_unpack _); by vm_compute
        |apply (bool_decide_unpack _); by vm_compute
        |split; intros c Hc; vm_compute in Hc; by simplify_eq])). }
  split; [exact Hrs|]. apply (verify_against_own_export records Hrs).
Defined.

(** X14. The records of an import follow its data lines: each record
    comes from one line, the records stand in the order of their lines,
    and there are at most as many records as lines after the header. *)
Theorem parseCsv_one_record_per_line
    (csvText : jsstring) (records : list ExtractedEntity) :
  parseCsv csvText = inr records →
  let rows := drop 1 (split_lines (trim csvText)) in
  length records ≤ length rows
  ∧ ∃ panIndex nameIndex typeIndex,
      records `sublist_of` (row_entity panIndex nameIndex typeIndex <$> rows).
Proof.
  intros Hparse rows. subst rows. unfold parseCsv in Hparse.
  case_decide.
  - injection Hparse as <-. split; [simpl; lia|].
    exists 0, 0, 0. apply sublist_nil_l.
  - destruct (indexOf _ (js "PAN")) as [p|]; [|done].
    destruct (indexOf _ (js "Entity Name")) as [n|]; [|done].
    destruct (indexOf _ (js "Entity Type")) as [t|]; [|done].
    injection Hparse as <-. rewrite parse_rows_filter. cbn [app].
    assert (filter kept (row_entity p n t
              <$> drop 1 (split_lines (trim csvText)))
            `sublist_of` (row_entity p n t
              <$> drop 1 (split_lines (trim csvText)))) as Hsub
      by apply sublist_filter.
    split; [|by exists p, n, t].
    apply sublist_length in Hsub. by rewrite length_fmap in Hsub.
Qed.

Lemma parseCsv_one_record_per_line_witness :
  let csvText :=
    js "Entity Type,PAN,Entity Name" ++ [CR; LF]
    ++ js "Organisation,ABCDE1234F," ++ quoted (js "Acme, Inc.") ++ [CR; LF]
    ++ js "Name,,nobody" ++ [CR; LF]
    ++ js "Name,PQRST6789U,R. K. Traders" in
  let records :=
    [mkEntity (js "ABCDE1234F") PAN_Of (js "Acme, Inc.") Organisation;
     mkEntity (js "PQRST6789U") PAN_Of (js "R. K. Traders") Name] in
  parseCsv csvText = inr records
  ∧ length records ≤ length (drop 1 (split_lines (trim csvText))).
Proof.
  intros csvText records.
  assert (parseCsv csvText = inr records) as Hparse by (by vm_compute).
  split; [exact Hparse|].
  exact (proj1 (parseCsv_one_record_per_line csvText records Hparse)).
Defined.

(** ** The header row *)

Section header_more.
Implicit Types (h : jsstring) (hs : list jsstring).

Lemma split_comma_line h : COMMA ∉ h → split_comma h = [h].
Proof.
  induction h as [|c h IH]; [done|].
  rewrite not_elem_of_cons. intros [Hc Hh]. cbn [split_comma].
  rewrite (IH Hh).
  by assert ((c =? COMMA)%N = false) as -> by (apply N.eqb_neq; congruence).
Qed.

Lemma split_comma_app h rest :
  COMMA ∉ h → split_comma (h ++ COMMA :: rest) = h :: split_comma rest.
Proof.
  induction h as [|c h IH]; [done|].
  rewrite not_elem_of_cons. intros [Hc Hh]. cbn [split_comma app].
  rewrite (IH Hh).
  by assert ((c =? COMMA)%N = false) as -> by (apply N.eqb_neq; congruence).
Qed.

Lemma split_comma_join hs :
  hs ≠ [] → Forall (λ h, COMMA ∉ h) hs → split_comma (join [COMMA] hs) = hs.
Proof.
  induction hs as [|h hs IH]; [done|]. intros _ Hhs.
  apply Forall_cons in Hhs as [Hh Hhs]. destruct hs as [|g hs].
  - by apply split_comma_line.
  - change (join [COMMA] (h :: g :: hs))
      with (h ++ COMMA :: join [COMMA] (g :: hs)).
    rewrite split_comma_app by done. by rewrite IH.
Qed.

Lemma quoted_no_outer_ws h : no_outer_ws (quoted h).
Proof.
  unfold quoted. split; intros c.
  - by intros [= <-].
  - rewrite app_assoc, last_snoc. by intros [= <-].
Qed.

Lemma COMMA_notin_quoted h : COMMA ∉ h → COMMA ∉ quoted h.
Proof.
  intros Hh. unfold quoted. rewrite !elem_of_app, !list_elem_of_singleton.
  intros [?|[?|?]]; done.
Qed.
End header_more.

(** X15. Header names may be written between double quotes: a header
    row of quoted names, none of which contains a comma or a double
    quote, is read as the list of the names themselves, in their order;
    bare names without white space around them are read as they are. *)
Theorem parse_headers_quoted (names : list jsstring) :
  names ≠ [] →
  Forall (λ h, (COMMA ∉ h) ∧ (QUOTE ∉ h)) names →
  parse_headers (join [COMMA] (quoted <$> names)) = names
  ∧ (Forall no_outer_ws names → parse_headers (join [COMMA] names) = names).
Proof.
  intros Hne Hnames. unfold parse_headers. split.
  - rewrite split_comma_join.
    + rewrite <- list_fmap_compose. rewrite <- (list_fmap_id names) at 2.
      apply Forall_fmap_ext_1. eapply Forall_impl; [exact Hnames|].
      intros h [_ Hq]. simpl.
      by rewrite (trim_id _ (quoted_no_outer_ws h)), strip_quotes_quoted.
    + by destruct names.
    + apply Forall_fmap. eapply Forall_impl; [exact Hnames|].
      intros h [Hc _]. by apply COMMA_notin_quoted.
  - intros Hws. rewrite split_comma_join; [|done|].
    + rewrite <- (list_fmap_id names) at 2.
      apply Forall_fmap_ext_1.
      apply Forall_and in Hnames as [_ Hq].
      assert (Forall (λ h, (QUOTE ∉ h) ∧ no_outer_ws h) names) as Hboth
        by (by apply Forall_and).
      eapply Forall_impl; [exact Hboth|].
      intros h [Hhq Hhw]. simpl. by rewrite trim_id, strip_quotes_id.
    + eapply Forall_impl; [exact Hnames|]. by intros h [? _].
Qed.

Lemma parse_headers_quoted_witness :
  let names := [js "Entity Type"; js "PAN"; js "Remarks"; js "Entity Name"] in
  parse_headers (quoted (js "Entity Type") ++ [COMMA] ++ quoted (js "PAN")
                 ++ [COMMA] ++ quoted (js "Remarks") ++ [COMMA]
                 ++ quoted (js "Entity Name"))
  = names.
Proof.
  intros names.
  refine (proj1 (parse_headers_quoted names _ _)); [done|].
  repeat apply Forall_cons_2; [..|apply Forall_nil_2];
    (split; apply (bool_decide_unpack _); by vm_compute).
Defined.
